(** * generate-secure-pillar: the [sls] package

    A shallow embedding of [sls.go] (package [sls]): the recursive walker
    that applies encrypt / decrypt / validate / rotate to the string leaves
    of a decoded YAML document, the include scan, and the file output.

    Conventions of the embedding.
    - A Go function returning [(T, error)] returns a pair [T * option error]:
      Go callers can and do use the value next to a non-nil error.
    - Calls into the PGP backend are recorded in a trace, the [World]; the
      backend's answers may depend on the trace (PGP encryption is
      randomised).  A computation is a function from the world to [None]
      (a runtime panic) or to a value and the new world.
    - A Go map is the list of its entries in the order in which [range]
      visits them in the run at hand.  Go leaves that order unspecified, so
      statements quantify over all lists. *)

From Stdlib Require Import String Ascii List Bool ZArith NArith DecimalString Lia.
From stdpp Require Import base strings gmap.
Import ListNotations.
Set Warnings "-register-all".
Local Open Scope string_scope.
Local Open Scope list_scope.

(** ** The functions of Go's [strings] package that the program calls *)

Fixpoint HasPrefix (s prefix : string) {struct prefix} : bool :=
  match prefix, s with
  | EmptyString, _ => true
  | String _ _, EmptyString => false
  | String a prefix', String b s' => Ascii.eqb a b && HasPrefix s' prefix'
  end.

(** [strings.Contains] *)
Fixpoint Contains (s substr : string) : bool :=
  HasPrefix s substr ||
  match s with
  | EmptyString => false
  | String _ rest => Contains rest substr
  end.

(** [strings.Split(s, sep)] for a one-byte separator. *)
Fixpoint Split (s : string) (sep : ascii) : list string :=
  match s with
  | EmptyString => [EmptyString]
  | String c rest =>
      if Ascii.eqb c sep then EmptyString :: Split rest sep
      else match Split rest sep with
           | [] => [String c EmptyString]
           | part :: parts => String c part :: parts
           end
  end.

(** [strings.IndexByte(s, c) >= 0] *)
Fixpoint ContainsByte (s : string) (c : ascii) : bool :=
  match s with
  | EmptyString => false
  | String b rest => Ascii.eqb b c || ContainsByte rest c
  end.

Fixpoint TrimPrefixLen (n : nat) (s : string) : string :=
  match n, s with
  | O, _ => s
  | S _, EmptyString => EmptyString
  | S n', String _ rest => TrimPrefixLen n' rest
  end.

(** [strings.Replace(s, old, "", 1)] for a non-empty [old]: the first
    occurrence of [old] is cut out. *)
Fixpoint ReplaceFirstWithEmpty (s old : string) : string :=
  if HasPrefix s old then TrimPrefixLen (String.length old) s
  else match s with
       | EmptyString => EmptyString
       | String c rest => String c (ReplaceFirstWithEmpty rest old)
       end.

(** ** Constants of the package *)

Definition pgpHeader : string := "-----BEGIN PGP MESSAGE-----".
Definition Encrypt : string := "encrypt".
Definition Decrypt : string := "decrypt".
Definition Validate : string := "validate".
Definition Rotate : string := "rotate".

(** Go's [error] values are compared by their message only. *)
Definition error := string.

(** ** The document tree

    What [yaml.Unmarshal] puts behind an [interface{}]: nil, a string, a
    slice, a [map[interface{}]interface{}], or a value of another kind
    (int, bool, float64). *)

Inductive Other :=
| OInt (n : Z)
| OBool (b : bool)
| OFloat64 (bits : N).

Inductive Key :=
| KString (s : string)
| KInt (n : Z)
| KBool (b : bool).

Inductive Value :=
| VNil
| VString (s : string)
| VOther (o : Other)
| VSlice (items : list Value)
| VMap (entries : list (Key * Value)).

Definition Key_eqb (a b : Key) : bool :=
  match a, b with
  | KString x, KString y => String.eqb x y
  | KInt x, KInt y => Z.eqb x y
  | KBool x, KBool y => Bool.eqb x y
  | _, _ => false
  end.

Section GoMap.
Context {K V : Type} (eqb : K -> K -> bool).

(** [m[k]] *)
Fixpoint mapaccess (m : list (K * V)) (k : K) : option V :=
  match m with
  | [] => None
  | (k', v) :: rest => if eqb k' k then Some v else mapaccess rest k
  end.

(** [m[k] = v] *)
Fixpoint mapassign (m : list (K * V)) (k : K) (v : V) : list (K * V) :=
  match m with
  | [] => [(k, v)]
  | (k', v') :: rest =>
      if eqb k' k then (k', v) :: rest else (k', v') :: mapassign rest k v
  end.
End GoMap.

(** The top-level document, [map[string]interface{}]. *)
Definition Values := list (string * Value).

(** ** Effects: the backend trace *)

Inductive Call :=
| CallEncryptSecret (plainText : string)
| CallDecryptSecret (cipherText : string)
| CallKeyUsedForEncryptedFile (content : string).

Definition World := list Call.

Definition M (A : Type) : Type := World -> option (A * World).

Definition ret {A} (a : A) : M A := fun w => Some (a, w).
Definition panic {A} : M A := fun _ => None.
Definition bind {A B} (m : M A) (k : A -> M B) : M B :=
  fun w => match m w with
           | Some (a, w') => k a w'
           | None => None
           end.

Notation "'let!' x ':=' m 'in' k" := (bind m (fun x => k))
  (at level 10, x pattern, m at level 100, k at level 200, only parsing).

(** ** The backend, package [pki]

    Only its interface is used: three methods returning [(string, error)]. *)

Record Pki := {
  EncryptSecret : World -> string -> string * option error;
  DecryptSecret : World -> string -> string * option error;
  KeyUsedForEncryptedFile : World -> string -> string * option error;
}.

Definition callEncryptSecret (p : Pki) (plainText : string) : M (string * option error) :=
  fun w => Some (EncryptSecret p w plainText, w ++ [CallEncryptSecret plainText]).

Definition callDecryptSecret (p : Pki) (cipherText : string) : M (string * option error) :=
  fun w => Some (DecryptSecret p w cipherText, w ++ [CallDecryptSecret cipherText]).

Definition callKeyUsedForEncryptedFile (p : Pki) (content : string) : M (string * option error) :=
  fun w => Some (KeyUsedForEncryptedFile p w content,
                 w ++ [CallKeyUsedForEncryptedFile content]).

(** The temporary file of [keyInfo]: each step can fail with an error of
    the operating system. *)
Record TmpFile := {
  TempFile_err : World -> option error;
  tmpWrite_err : World -> option error;
  tmpClose_err : World -> option error;
  tmpRemove_err : World -> option error;
}.

Definition sys {A} (f : World -> A) : M A := fun w => Some (f w, w).

(** ** The [Sls] object *)

Record Sls := {
  FilePath : string;
  Yaml : Values;
  pki : Pki;
  IsInclude : bool;
  EncryptionPath : string;
  KeyMap : Values;
  Error : option error;
}.

Definition isEncrypted (str : string) : bool := Contains str pgpHeader.

Definition validAction (action : string) : bool :=
  String.eqb action Encrypt || String.eqb action Decrypt
  || String.eqb action Validate || String.eqb action Rotate.

Section Leaves.
Variable tmp : TmpFile.
Variable s : Sls.

Definition decryptVal (strVal : string) : M (string * option error) :=
  if isEncrypted strVal then
    let! (plainText, err) := callDecryptSecret (pki s) strVal in
    match err with
    | Some e => ret (strVal, Some ("error decrypting value: " +:+ e))
    | None => ret (plainText, None)
    end
  else ret (strVal, None).

Definition rotateVal (strVal : string) : M (string * option error) :=
  let! (strVal', err) := decryptVal strVal in
  match err with
  | Some e => ret (strVal', Some e)
  | None => callEncryptSecret (pki s) strVal'
  end.

Definition keyInfo (val : string) : M (string * option error) :=
  if negb (isEncrypted val) then ret (val, Some "value is not encrypted")
  else
    let! err := sys (TempFile_err tmp) in
    match err with
    | Some e => ret (val, Some ("keyInfo: " +:+ e))
    | None =>
    let! err := sys (tmpWrite_err tmp) in
    match err with
    | Some e => ret (val, Some ("keyInfo: " +:+ e))
    | None =>
    let! (keyInfo, err) := callKeyUsedForEncryptedFile (pki s) val in
    match err with
    | Some e => ret (val, Some ("keyInfo: " +:+ e))
    | None =>
    let! err := sys (tmpClose_err tmp) in
    match err with
    | Some e => ret (val, Some ("keyInfo: " +:+ e))
    | None =>
    let! err := sys (tmpRemove_err tmp) in
    match err with
    | Some e => ret (val, Some ("keyInfo: " +:+ e))
    | None => ret (keyInfo, None)
    end end end end end.

Definition doString (val : string) (action : string) : M (string * option error) :=
  let strVal := val in
  if String.eqb action Decrypt then
    let! (strVal, err) := decryptVal strVal in
    match err with
    | Some e => ret (val, Some e)
    | None => ret (strVal, None)
    end
  else if String.eqb action Encrypt then
    if negb (isEncrypted strVal) then
      let! (strVal, err) := callEncryptSecret (pki s) strVal in
      match err with
      | Some e => ret (val, Some e)
      | None => ret (strVal, None)
      end
    else ret (strVal, None)
  else if String.eqb action Validate then
    let! (strVal, err) := keyInfo strVal in
    match err with
    | Some e => ret (val, Some e)
    | None => ret (strVal, None)
    end
  else if String.eqb action Rotate then
    let! (strVal, err) := rotateVal strVal in
    match err with
    | Some e => ret (val, Some e)
    | None => ret (strVal, None)
    end
  else ret (strVal, None).
End Leaves.

(** ** The walker: [doSlice], [doMap], [ProcessValues]

    The three functions are mutually recursive through the [switch] on the
    kind of each child.  [doKind] is that call: [doSlice] on a slice,
    [doMap] on a map, [doString] on a string. *)

Section Ranges.
Variable doKind : Value -> M (Value * option error).

(** The [for _, item := range vals] of [doSlice]; [things] is the slice
    built so far.  [reflect.TypeOf(nil).Kind()] is a nil dereference. *)
Fixpoint doSlice_range (vals : Value) (items things : list Value)
  : M (Value * option error) :=
  match items with
  | [] => ret (VSlice things, None)
  | item :: rest =>
      match item with
      | VNil => panic
      | VOther _ => doSlice_range vals rest things
      | _ =>
          let! (thing, err) := doKind item in
          match err with
          | Some e => ret (vals, Some e)
          | None => doSlice_range vals rest (things ++ [thing])
          end
      end
  end.

(** The [for key, val := range vals] of [doMap]; [ret0] is the map built
    so far and [err] the function's [err] variable. *)
Fixpoint doMap_range (entries ret0 : list (Key * Value)) (err : option error)
  : M (Value * option error) :=
  match entries with
  | [] => ret (VMap ret0, err)
  | (key, val) :: rest =>
      match val with
      | VNil => ret (VMap ret0, err)
      | VOther _ => doMap_range rest ret0 err
      | _ =>
          let! (v, err') := doKind val in
          doMap_range rest (mapassign Key_eqb ret0 key v) err'
      end
  end.
End Ranges.

Section Walker.
Variable tmp : TmpFile.
Variable s : Sls.

Fixpoint doKind (action : string) (val : Value) {struct val}
  : M (Value * option error) :=
  match val with
  | VSlice items => doSlice_range (doKind action) val items []
  | VMap entries => doMap_range (doKind action) entries [] None
  | VString str =>
      let! (str', err) := doString tmp s str action in
      ret (VString str', err)
  | VNil | VOther _ => ret (VNil, None)
  end.

(** [vals.([]interface{})] panics on anything but a slice. *)
Definition doSlice (vals : Value) (action : string) : M (Value * option error) :=
  match vals with
  | VNil => ret (VSlice [], None)
  | VSlice items => doSlice_range (doKind action) vals items []
  | _ => panic
  end.

Definition doMap (vals : list (Key * Value)) (action : string)
  : M (Value * option error) :=
  doMap_range (doKind action) vals [] None.

Definition ProcessValues (vals : Value) (action : string)
  : M (Value * option error) :=
  match vals with
  | VNil => ret (VNil, None)
  | VSlice _ => doSlice vals action
  | VMap entries => doMap entries action
  | VString str =>
      let! (str', err) := doString tmp s str action in
      ret (VString str', err)
  | VOther _ => ret (VNil, None)
  end.
End Walker.

(** ** Paths *)

Definition colon : ascii := ":"%char.

(** Modelled from the spec: [Yaml.Get] of the external package
    [github.com/esilva-everbridge/yaml], whose source is not part of the
    repository.  It walks the path parts as successive mapping-key lookups
    and yields nil when a key is missing or a part has to be looked up in
    something that is not a mapping; it never creates structure. *)
Fixpoint Get_in (v : Value) (parts : list string) : Value :=
  match parts with
  | [] => v
  | part :: parts' =>
      match v with
      | VMap entries =>
          match mapaccess Key_eqb entries (KString part) with
          | Some v' => Get_in v' parts'
          | None => VNil
          end
      | _ => VNil
      end
  end.

Definition Yaml_Get (values : Values) (args : list string) : Value :=
  match args with
  | [] => VNil
  | part :: parts' =>
      match mapaccess String.eqb values part with
      | Some v => Get_in v parts'
      | None => VNil
      end
  end.

Definition GetValueFromPath (s : Sls) (path : string) : Value :=
  let parts := Split path colon in
  Yaml_Get (Yaml s) parts.

(** ** [FormatBuffer] and [PerformAction] *)

Definition set_Yaml (s : Sls) (values : Values) : Sls :=
  {| FilePath := FilePath s; Yaml := values; pki := pki s;
     IsInclude := IsInclude s; EncryptionPath := EncryptionPath s;
     KeyMap := KeyMap s; Error := Error s |}.

Definition set_KeyMap (s : Sls) (keyMap : Values) : Sls :=
  {| FilePath := FilePath s; Yaml := Yaml s; pki := pki s;
     IsInclude := IsInclude s; EncryptionPath := EncryptionPath s;
     KeyMap := keyMap; Error := Error s |}.

Definition set_IsInclude (s : Sls) (b : bool) : Sls :=
  {| FilePath := FilePath s; Yaml := Yaml s; pki := pki s;
     IsInclude := b; EncryptionPath := EncryptionPath s;
     KeyMap := KeyMap s; Error := Error s |}.

Section Actions.
(** [yaml.Marshal] of [gopkg.in/yaml.v2], an external serialiser. *)
Variable Marshal : Values -> string * option error.
Variable tmp : TmpFile.

(** The data [FormatBuffer] serialises. *)
Definition formatted (s : Sls) (action : string) : Values :=
  if negb (String.eqb action Validate) then Yaml s else KeyMap s.

Definition FormatBuffer (s : Sls) (action : string) : string * option error :=
  let buffer := "" in
  let data := formatted s action in
  if Nat.eqb (List.length data) 0 then
    (buffer, Some (FilePath s +:+ " has no values to format"))
  else
    let '(out, err) := Marshal data in
    match err with
    | Some e => (buffer, Some (FilePath s +:+ " format error: " +:+ e))
    | None =>
        let buffer :=
          if negb (String.eqb action Validate) then "#!yaml|gpg" +:+ String "010" (String "010" "")
          else buffer in
        (buffer +:+ out, None)
    end.

(** The [for key := range s.Yaml.Values]: [stuff] is the map built so
    far.  On an error the function returns at once; [stuff] is dropped. *)
Fixpoint PerformAction_range (s : Sls) (action : string) (keys : list string)
  (stuff : Values) : M (Values * option error) :=
  match keys with
  | [] => ret (stuff, None)
  | key :: rest =>
      if negb (String.eqb (EncryptionPath s) "") then
        let vals := GetValueFromPath s key in
        if String.eqb (EncryptionPath s) key then
          let! (v, err) := ProcessValues tmp s vals action in
          let stuff := mapassign String.eqb stuff key v in
          match err with
          | Some e => ret (stuff, Some e)
          | None => PerformAction_range s action rest stuff
          end
        else PerformAction_range s action rest (mapassign String.eqb stuff key vals)
      else
        let vals := GetValueFromPath s key in
        let! (v, err) := ProcessValues tmp s vals action in
        let stuff := mapassign String.eqb stuff key v in
        match err with
        | Some e => ret (stuff, Some e)
        | None => PerformAction_range s action rest stuff
        end
  end.

(** Returns the buffer, the error and the object as the call leaves it. *)
Definition PerformAction (s : Sls) (action : string)
  : M ((string * option error) * Sls) :=
  let buf := "" in
  if validAction action then
    let! (stuff, err) := PerformAction_range s action (map fst (Yaml s)) [] in
    match err with
    | Some e => ret ((buf, Some e), s)
    | None =>
        let s' := if negb (String.eqb action Validate) then set_Yaml s stuff
                  else set_KeyMap s stuff in
        ret (FormatBuffer s' action, s')
    end
  else ret (FormatBuffer s action, s).
End Actions.

(** ** The operating system

    Files live in a finite map from absolute names to nodes.  A system
    call can be answered with an error ([fault]); a [Write] or a copy can
    stop after some bytes ([transferred]). *)

Inductive Node :=
| RegularFile (content : string)
| Directory.

Inductive Syscall :=
| SysGetwd
| SysAbs (path : string)
| SysStat (name : string)
| SysMkdirAll (path : string)
| SysOpenFile (name : string)
| SysReadFile (name : string)
| SysTempFile (pattern : string)
| SysWrite (name : string)
| SysSync (name : string)
| SysClose (name : string)
| SysChmod (name : string)
| SysOpen (name : string)
| SysCreate (name : string)
| SysCopy (dst src : string)
| SysRemove (name : string).

Record OS := {
  fault : Syscall -> option error;
  transferred : Syscall -> option nat;
  (** the working directory, as [os.Getwd] reports it *)
  pwd : string;
  (** [filepath.Abs] and [filepath.Dir] of the Go library, on success *)
  Abs : string -> string;
  Dir : string -> string;
  (** the fresh name [ioutil.TempFile] picks for a pattern *)
  tempName : string -> string;
}.

Definition Stdout_Name : string := "/dev/stdout".
Definition slash : ascii := "/"%char.
Definition LF : ascii := "010"%char.
Definition CR : ascii := "013"%char.

Inductive StatResult :=
| StatOk (size : nat)
| StatNotExist
| StatError (e : error).

Definition IsNotExist (r : StatResult) : bool :=
  match r with StatNotExist => true | _ => false end.

Section Syscalls.
Variable os : OS.

Definition Stat (fs : gmap string Node) (name : string) : StatResult :=
  match fault os (SysStat name) with
  | Some e => StatError e
  | None =>
      match fs !! Abs os name with
      | None => StatNotExist
      | Some (RegularFile content) => StatOk (String.length content)
      | Some Directory => StatOk 0
      end
  end.

(** The directory and its ancestors: every prefix of the name that ends
    before a separator, and the name itself. *)
Fixpoint pathChain_from (done rest : string) : list string :=
  match rest with
  | EmptyString => match done with EmptyString => [] | _ => [done] end
  | String c rest' =>
      let tail := pathChain_from (done +:+ String c EmptyString) rest' in
      if Ascii.eqb c slash
      then match done with EmptyString => tail | _ => done :: tail end
      else tail
  end.

Definition pathChain (path : string) : list string :=
  pathChain_from EmptyString path.

Definition mkdir (fs : gmap string Node) (name : string) : gmap string Node :=
  match fs !! name with
  | None => <[name := Directory]> fs
  | Some _ => fs
  end.

Definition isRegular (fs : gmap string Node) (name : string) : bool :=
  match fs !! name with
  | Some (RegularFile _) => true
  | _ => false
  end.

Definition MkdirAll (fs : gmap string Node) (path : string)
  : option error * gmap string Node :=
  match fault os (SysMkdirAll path) with
  | Some e => (Some e, fs)
  | None =>
      let chain := pathChain (Abs os path) in
      if existsb (isRegular fs) chain
      then (Some ("mkdir " +:+ path +:+ ": not a directory"), fs)
      else (None, fold_left mkdir chain fs)
  end.

(** [os.OpenFile(name, os.O_RDONLY|os.O_CREATE, 0600)] *)
Definition OpenFile_create (fs : gmap string Node) (name : string)
  : option error * gmap string Node :=
  match fault os (SysOpenFile name) with
  | Some e => (Some e, fs)
  | None =>
      match fs !! Abs os name with
      | None => (None, <[Abs os name := RegularFile EmptyString]> fs)
      | Some _ => (None, fs)
      end
  end.

Definition filepath_Abs (path : string) : string * option error :=
  match fault os (SysAbs path) with
  | Some e => (EmptyString, Some e)
  | None => (Abs os path, None)
  end.

Definition ReadFile (fs : gmap string Node) (name : string)
  : string * option error :=
  match fault os (SysReadFile name) with
  | Some e => (EmptyString, Some e)
  | None =>
      match fs !! Abs os name with
      | Some (RegularFile content) => (content, None)
      | Some Directory => (EmptyString, Some ("read " +:+ name +:+ ": is a directory"))
      | None => (EmptyString, Some ("open " +:+ name +:+ ": no such file or directory"))
      end
  end.

Definition shortFileName (file : string) : string :=
  match fault os SysGetwd with
  | Some _ => file
  | None => ReplaceFirstWithEmpty file (pwd os +:+ "/")
  end.
End Syscalls.

(** ** Reading: [ScanForIncludes], [ReadBytes], [ReadSlsFile] *)

(** [bufio.MaxScanTokenSize] *)
Definition MaxScanTokenSize : N := 65536.
Definition ErrTooLong : error := "bufio.Scanner: token too long".

(** The lines [bufio.ScanLines] cuts: the text between newlines; an empty
    rest after the last newline is no line. *)
Definition rawLines (buf : string) : list string :=
  let segments := Split buf LF in
  match List.last segments EmptyString with
  | EmptyString => List.removelast segments
  | _ => segments
  end.

Fixpoint dropCR (line : string) : string :=
  match line with
  | EmptyString => EmptyString
  | String c EmptyString => if Ascii.eqb c CR then EmptyString else line
  | String c rest => String c (dropCR rest)
  end.

Section Reading.
Variable os : OS.
(** [yaml.Unmarshal] of [gopkg.in/yaml.v2] into the fresh map of
    [yaml.New()]: the decoded values and the parse error. *)
Variable Unmarshal : string -> Values * option error.

(** The [for scanner.Scan()] loop; a line of [MaxScanTokenSize] bytes or
    more stops the scanner with [ErrTooLong]. *)
Fixpoint ScanForIncludes_lines (s : Sls) (lines : list string) : option error :=
  match lines with
  | [] => None
  | raw :: rest =>
      if (MaxScanTokenSize <=? N.of_nat (String.length raw))%N then Some ErrTooLong
      else
        let txt := dropCR raw in
        if Contains txt "include:"
        then Some (shortFileName os (FilePath s) +:+ " contains include directives")
        else ScanForIncludes_lines s rest
  end.

Definition ScanForIncludes (s : Sls) (reader : string) : option error :=
  ScanForIncludes_lines s (rawLines reader).

(** The warning sent to the logger is not part of the state. *)
Definition ReadBytes (s : Sls) (buf : string) : option error * Sls :=
  let s := set_Yaml s [] in
  let reader := buf in
  let err := ScanForIncludes s reader in
  let s := match err with
           | Some _ => set_IsInclude s true
           | None => s
           end in
  let '(values, err) := Unmarshal buf in
  (err, set_Yaml s values).

Definition ReadSlsFile (fs : gmap string Node) (s : Sls)
  : (option error * Sls) * gmap string Node :=
  if Nat.eqb (String.length (FilePath s)) 0
  then ((Some "no file path given", s), fs)
  else if String.eqb (FilePath s) Stdout_Name then ((None, s), fs)
  else
    let created :=
      if IsNotExist (Stat os fs (FilePath s)) then
        let dir := Dir os (FilePath s) in
        let '(err, fs) := MkdirAll os fs dir in
        match err with
        | Some e => (Some e, fs)
        | None => OpenFile_create os fs (FilePath s)
        end
      else (None, fs) in
    let '(err, fs) := created in
    match err with
    | Some e => ((Some e, s), fs)
    | None =>
        let '(fullPath, err) := filepath_Abs os (FilePath s) in
        match err with
        | Some e => ((Some e, s), fs)
        | None =>
            let '(buf, err) := ReadFile os fs fullPath in
            match err with
            | Some e => ((Some e, s), fs)
            | None => (ReadBytes s buf, fs)
            end
        end
    end.
End Reading.

(** ** Writing: [atomicWrite] and [copyFile] *)

(** The file part of [path.Split]: what follows the final slash. *)
Definition path_Split_file (path : string) : string :=
  List.last (Split path slash) EmptyString.

Definition Itoa (n : nat) : string :=
  DecimalString.NilZero.string_of_uint (Nat.to_uint n).

Definition firstBytes (n : nat) (data : string) : string :=
  String.substring 0 n data.

Section Writing.
Variable os : OS.

Definition TempFile (fs : gmap string Node) (pattern : string)
  : (string * option error) * gmap string Node :=
  match fault os (SysTempFile pattern) with
  | Some e => ((EmptyString, Some e), fs)
  | None =>
      let name := tempName os pattern in
      ((name, None), <[Abs os name := RegularFile EmptyString]> fs)
  end.

(** [f.Write(data)] on a file opened at its end: a failed write has put
    [transferred] bytes (none, if unspecified) into the file. *)
Definition fileWrite (fs : gmap string Node) (name data : string)
  : (nat * option error) * gmap string Node :=
  let old := match fs !! Abs os name with
             | Some (RegularFile content) => content
             | _ => EmptyString
             end in
  match fault os (SysWrite name) with
  | Some e =>
      let n := Nat.min (default 0 (transferred os (SysWrite name))) (String.length data) in
      ((n, Some e), <[Abs os name := RegularFile (old +:+ firstBytes n data)]> fs)
  | None =>
      ((String.length data, None), <[Abs os name := RegularFile (old +:+ data)]> fs)
  end.

(** [os.Create(name)]: the file is created or truncated. *)
Definition Create (fs : gmap string Node) (name : string)
  : option error * gmap string Node :=
  match fault os (SysCreate name) with
  | Some e => (Some e, fs)
  | None =>
      match fs !! Abs os name with
      | Some Directory => (Some ("open " +:+ name +:+ ": is a directory"), fs)
      | _ => (None, <[Abs os name := RegularFile EmptyString]> fs)
      end
  end.

(** [io.Copy(fdst, fsrc)] into the freshly truncated [dst]: the bytes
    written, the error, and the file system. *)
Definition ioCopy (fs : gmap string Node) (dst src : string)
  : (nat * option error) * gmap string Node :=
  let data := match fs !! Abs os src with
              | Some (RegularFile content) => content
              | _ => EmptyString
              end in
  let n := Nat.min (default (String.length data) (transferred os (SysCopy dst src)))
                   (String.length data) in
  ((n, fault os (SysCopy dst src)),
   <[Abs os dst := RegularFile (firstBytes n data)]> fs).

Definition Remove (fs : gmap string Node) (name : string)
  : option error * gmap string Node :=
  match fault os (SysRemove name) with
  | Some e => (Some e, fs)
  | None =>
      match fs !! Abs os name with
      | None => (Some ("remove " +:+ name +:+ ": no such file or directory"), fs)
      | Some _ => (None, delete (Abs os name) fs)
      end
  end.

Definition copyFile (fs : gmap string Node) (src dst : string)
  : option error * gmap string Node :=
  match Stat os fs src with
  | StatError e => (Some e, fs)
  | StatNotExist => (Some ("stat " +:+ src +:+ ": no such file or directory"), fs)
  | StatOk srcSize =>
      match fault os (SysOpen src) with
      | Some e => (Some e, fs)
      | None =>
          let '(err, fs) := Create fs dst in
          match err with
          | Some e => (Some e, fs)
          | None =>
              let '((size, err), fs) := ioCopy fs dst src in
              match err with
              | Some e => (Some e, fs)
              | None =>
                  if negb (Nat.eqb size srcSize) then
                    (Some (src +:+ ": " +:+ Itoa size +:+ "/" +:+ Itoa srcSize +:+ " copied"), fs)
                  else
                    match fault os (SysClose src) with
                    | Some _ => (fault os (SysClose dst), fs)
                    | None => (None, fs)
                    end
              end
          end
      end
  end.

Definition atomicWrite (fs : gmap string Node) (fullPath buffer : string)
  : (nat * option error) * gmap string Node :=
  let name := path_Split_file fullPath in
  let '((f, err), fs) := TempFile fs ("gsp-" +:+ name) in
  match err with
  | Some e => ((0, Some e), fs)
  | None =>
      let '((byteCount, err), fs) := fileWrite fs f buffer in
      let err := match err with
                 | None => fault os (SysSync f)
                 | Some e => Some e
                 end in
      let closeErr := fault os (SysClose f) in
      let err := match err with None => closeErr | Some e => Some e end in
      let permErr := fault os (SysChmod f) in
      let err := match err with None => permErr | Some e => Some e end in
      let '(err, fs) := match err with
                        | None => copyFile fs f fullPath
                        | Some e => (Some e, fs)
                        end in
      match err with
      | Some e => ((byteCount, Some e), fs)
      | None =>
          if negb (IsNotExist (Stat os fs f)) then
            let '(err, fs) := Remove fs f in
            ((byteCount, err), fs)
          else ((byteCount, None), fs)
      end
  end.
End Writing.

(** ** A concrete system for the examples

    A backend, an operating system, a serialiser and a decoder small
    enough to run inside the development. *)

Module Sample.
(** Armours by prefixing the header; refuses what does not start with it. *)
Definition armoured (cipherText : string) : bool := HasPrefix cipherText pgpHeader.

Definition backend : Pki := {|
  EncryptSecret := fun _ plainText => (pgpHeader +:+ plainText, None);
  DecryptSecret := fun _ cipherText =>
    if armoured cipherText
    then (TrimPrefixLen (String.length pgpHeader) cipherText, None)
    else (EmptyString, Some "no armored data found");
  KeyUsedForEncryptedFile := fun _ content =>
    if armoured content
    then ("Salt Master <salt@example.com>", None)
    else (EmptyString, Some "no armored data found");
|}.

Definition tmp : TmpFile := {|
  TempFile_err := fun _ => None;
  tmpWrite_err := fun _ => None;
  tmpClose_err := fun _ => None;
  tmpRemove_err := fun _ => None;
|}.

Definition working_dir : string := "/srv/pillar".

Definition abs (path : string) : string :=
  if HasPrefix path "/" then path else working_dir +:+ "/" +:+ path.

(** All but the last element of a slash-separated name. *)
Definition dir (path : string) : string :=
  match String.concat "/" (List.removelast (Split path slash)) with
  | EmptyString => if HasPrefix path "/" then "/" else "."
  | d => d
  end.

Definition system (fault : Syscall -> option error)
  (transferred : Syscall -> option nat) : OS := {|
  fault := fault;
  transferred := transferred;
  pwd := working_dir;
  Abs := abs;
  Dir := dir;
  tempName := fun pattern => "/tmp/" +:+ pattern +:+ "042";
|}.

Definition healthy : OS := system (fun _ => None) (fun _ => None).

(** A disk that fills up four bytes into the copy onto the destination. *)
Definition disk_full : OS :=
  system (fun call => match call with
                      | SysCopy _ _ => Some "no space left on device"
                      | _ => None
                      end)
         (fun call => match call with
                      | SysCopy _ _ => Some 4
                      | _ => None
                      end).

Definition quote : ascii := "034"%char.

Definition render_key (k : Key) : string :=
  match k with
  | KString s => s
  | KInt n => if (n <? 0)%Z then "-" +:+ Itoa (Z.to_nat (- n)) else Itoa (Z.to_nat n)
  | KBool true => "true"
  | KBool false => "false"
  end.

(** Flow-style output, enough to look at a result. *)
Fixpoint render (v : Value) : string :=
  match v with
  | VNil => "null"
  | VString s => String quote (s +:+ String quote EmptyString)
  | VOther (OInt n) => render_key (KInt n)
  | VOther (OBool b) => render_key (KBool b)
  | VOther (OFloat64 _) => ".nan"
  | VSlice items =>
      "[" +:+ String.concat ", " (map render items) +:+ "]"
  | VMap entries =>
      "{" +:+ String.concat ", "
                (map (fun kv => render_key (fst kv) +:+ ": " +:+ render (snd kv)) entries)
          +:+ "}"
  end.

Definition Marshal (data : Values) : string * option error :=
  (String.concat EmptyString
     (map (fun kv => fst kv +:+ ": " +:+ render (snd kv) +:+ String LF EmptyString) data),
   None).

(** The text before and after the first colon of a line. *)
Fixpoint cut_at_colon (line : string) : option (string * string) :=
  match line with
  | EmptyString => None
  | String c rest =>
      if Ascii.eqb c colon then Some (EmptyString, rest)
      else match cut_at_colon rest with
           | Some (k, v) => Some (String c k, v)
           | None => None
           end
  end.

(** Decodes documents made of [key: value] lines. *)
Fixpoint decode_lines (lines : list string) (values : Values)
  : Values * option error :=
  match lines with
  | [] => (values, None)
  | EmptyString :: rest => decode_lines rest values
  | line :: rest =>
      match cut_at_colon line with
      | Some (k, String " " v) =>
          decode_lines rest (mapassign String.eqb values k (VString v))
      | Some (k, EmptyString) =>
          decode_lines rest (mapassign String.eqb values k VNil)
      | _ => (values, Some "yaml: could not find expected ':'")
      end
  end.

Definition Unmarshal (buf : string) : Values * option error :=
  decode_lines (map dropCR (rawLines buf)) [].

Definition new (filePath encPath : string) (values : Values) : Sls := {|
  FilePath := filePath; Yaml := values; pki := backend; IsInclude := false;
  EncryptionPath := encPath; KeyMap := []; Error := None;
|}.
End Sample.

(** Documents and file contents used in the examples. *)
Module Docs.
Definition nl : string := String LF EmptyString.

(** A pillar file that includes another one. *)
Definition with_include : string :=
  "include:" +:+ nl +:+ "  - base" +:+ nl +:+ "password: hunter2" +:+ nl.

Definition old_content : string := "#!yaml|gpg" +:+ nl +:+ nl +:+ "old: value" +:+ nl.
Definition new_content : string := "#!yaml|gpg" +:+ nl +:+ nl +:+ "new: value" +:+ nl.
Definition destination : string := "/srv/pillar/secrets.sls".

(** Mentions the header without being an armoured message. *)
Definition not_armoured : string := "see -----BEGIN PGP MESSAGE----- above".

Definition port_and_password : Value :=
  VMap [(KString "port", VOther (OInt 8080)); (KString "password", VString "hunter2")].

Definition null_then_password : Value :=
  VMap [(KString "comment", VNil); (KString "password", VString "hunter2")].

Definition bad_then_plain : list (Key * Value) :=
  [(KString "x", VString not_armoured); (KString "y", VString "plain")].

Definition colon_key : Values :=
  [("a:b", VString "v"); ("x", VString "secret")].

Definition one_password : Values := [("password", VString "hunter2")].
End Docs.

(** ** The scope of [PerformAction], as statements about one run *)

Section Scope.
Variable Marshal : Values -> string * option error.
Variable tmp : TmpFile.

(** After a call that returned without error, the formatted data has at
    [key] what the document had there. *)
Definition passed_through (s : Sls) (action key : string) : Prop :=
  forall (w : World) buf s' w',
    PerformAction Marshal tmp s action w = Some ((buf, None), s', w') ->
    mapaccess String.eqb (formatted s' action) key
    = mapaccess String.eqb (Yaml s) key.

(** A call that returned without error did to the backend what
    [ProcessValues] on the value under [key] does, and formatted its
    result under [key]. *)
Definition processed_alone (s : Sls) (action key : string) : Prop :=
  forall (w : World) v buf s' w',
    mapaccess String.eqb (Yaml s) key = Some v ->
    PerformAction Marshal tmp s action w = Some ((buf, None), s', w') ->
    exists v',
      ProcessValues tmp s v action w = Some ((v', None), w')
      /\ mapaccess String.eqb (formatted s' action) key = Some v'.

(** The call returned without error. *)
Definition completes (s : Sls) (action : string) (w : World) : Prop :=
  exists buf s' w', PerformAction Marshal tmp s action w = Some ((buf, None), s', w').
End Scope.

(** ** Failures of [atomicWrite] ahead of the copy *)

Definition tempOf (os : OS) (fullPath : string) : string :=
  tempName os ("gsp-" +:+ path_Split_file fullPath).

(** Creating, writing, syncing, closing or changing the mode of the
    temporary file fails. *)
Definition fails_before_copy (os : OS) (fullPath : string) : Prop :=
  fault os (SysTempFile ("gsp-" +:+ path_Split_file fullPath)) <> None
  \/ fault os (SysWrite (tempOf os fullPath)) <> None
  \/ fault os (SysSync (tempOf os fullPath)) <> None
  \/ fault os (SysClose (tempOf os fullPath)) <> None
  \/ fault os (SysChmod (tempOf os fullPath)) <> None.

(** ** Statements about the walker *)

(** The trace [w'] is [w] followed by calls that all satisfy [P]. *)
Definition only_calls (P : Call -> Prop) (w w' : World) : Prop :=
  exists calls, w' = w ++ calls /\ List.Forall P calls.

(** The calls an action may make: encrypt hands over strings without the
    marker, decrypt and validate strings with it, rotate decrypts strings
    with the marker and encrypts what comes out. *)
Definition permitted (action : string) (c : Call) : Prop :=
  match c with
  | CallEncryptSecret plainText =>
      (action = Encrypt /\ isEncrypted plainText = false) \/ action = Rotate
  | CallDecryptSecret cipherText =>
      (action = Decrypt \/ action = Rotate) /\ isEncrypted cipherText = true
  | CallKeyUsedForEncryptedFile content =>
      action = Validate /\ isEncrypted content = true
  end.

(** A value with every string blanked: what is left is its structure. *)
Fixpoint skeleton (v : Value) : Value :=
  match v with
  | VNil => VNil
  | VString _ => VString EmptyString
  | VOther o => VOther o
  | VSlice items => VSlice (map skeleton items)
  | VMap entries => VMap (map (fun kv => (fst kv, skeleton (snd kv))) entries)
  end.

(** No key of the list is equal to a later one. *)
Fixpoint distinct_keys (keys : list Key) : bool :=
  match keys with
  | [] => true
  | k :: rest => negb (existsb (Key_eqb k) rest) && distinct_keys rest
  end.

(** Strings, sequences and mappings only, and no mapping with a key twice:
    the trees every case of the walker's switches covers. *)
Fixpoint walkable (v : Value) : bool :=
  match v with
  | VNil => false
  | VString _ => true
  | VOther _ => false
  | VSlice items => forallb walkable items
  | VMap entries =>
      forallb (fun kv => walkable (snd kv)) entries && distinct_keys (map fst entries)
  end.

(** On a walkable value the computation [f] returns, and returns a value
    with the structure of its input. *)
Definition keeps_shape (f : Value -> M (Value * option error)) (v : Value) : Prop :=
  walkable v = true ->
  forall w, exists v' err w', f v w = Some ((v', err), w') /\ skeleton v' = skeleton v.

(** ** [WriteSlsFile] *)

Section WritingFile.
Variable os : OS.
(** [fmt.Fprintf(os.Stderr, format)] with no further arguments: the bytes
    written and the error. *)
Variable Fprintf_Stderr : string -> nat * option error.

End WritingFile.

(** ** [SetValueFromPath] and [ProcessYaml] *)

Section Setting.
(** [Yaml.Set] of the external package [github.com/esilva-everbridge/yaml]:
    the values after the call and its error, for the path parts and the
    value to set. *)
Variable Yaml_Set : Values -> list string -> string -> Values * option error.

Definition SetValueFromPath (s : Sls) (path value : string) : option error * Sls :=
  let parts := Split path colon in
  let '(values, err) := Yaml_Set (Yaml s) parts value in
  match err with
  | None => (None, set_Yaml s values)
  | Some e => (Some e, set_Yaml s values)
  end.

(** The loop on [index] walks the names and the values side by side; a
    name past the last value is set to the empty string. *)
Fixpoint ProcessYaml (s : Sls) (secretNames secretValues : list string)
  : M (option error * Sls) :=
  match secretNames with
  | [] => ret (None, s)
  | name :: names =>
      match secretValues with
      | value :: values =>
          let! (cipherText, err) := callEncryptSecret (pki s) value in
          match err with
          | Some e => ret (Some e, s)
          | None =>
              let '(err, s) := SetValueFromPath s name cipherText in
              match err with
              | Some e => ret (Some e, s)
              | None => ProcessYaml s names values
              end
          end
      | [] =>
          let '(err, s) := SetValueFromPath s name EmptyString in
          match err with
          | Some e => ret (Some e, s)
          | None => ProcessYaml s names []
          end
      end
  end.
End Setting.

(** A system on which no call fails and no transfer stops short. *)
Definition healthy_system (os : OS) : Prop :=
  (forall call, fault os call = None) /\ (forall call, transferred os call = None).

(** ** Package [main]: the pass over [secure_vars]

    The first part of [sls.go].  [encryptSecret] of package [main] is not
    among the sources; it takes the plaintext and returns the ciphertext. *)

Section SecureVars.
Variable encryptSecret : string -> M string.


End SecureVars.



(** ** Package [main]: configuration profiles *)

Record GSPProfile := {
  Name : string;
  Default : bool;
  DefaultKey : string;
  GnupgHome : string;
  DefaultPubRing : string;
  DefaultSecRing : string;
}.

(** The package variables the profile code reads and writes. *)
Record Globals := {
  pgpKeyName : string;
  defaultProfileName : string;
  defaultPubRing : string;
  defaultSecRing : string;
}.

(** The zero value of [GSPProfile]. *)
Definition zeroProfile : GSPProfile :=
  {| Name := ""; Default := false; DefaultKey := ""; GnupgHome := "";
     DefaultPubRing := ""; DefaultSecRing := "" |}.

Definition profile_matches (g : Globals) (p : GSPProfile) : bool :=
  if negb (String.eqb (defaultProfileName g) "")
  then String.eqb (Name p) (defaultProfileName g)
  else Default p.

(** The [for _, p := range gspConfig.Profiles] of [readConfigFile]. *)
Fixpoint readConfigFile_range (g : Globals) (profiles : list GSPProfile)
  (profile : GSPProfile) : GSPProfile :=
  match profiles with
  | [] => profile
  | p :: rest =>
      let profile :=
        if negb (String.eqb (defaultProfileName g) "") then
          if String.eqb (Name p) (defaultProfileName g) then p else profile
        else
          if Default p then p else profile in
      readConfigFile_range g rest profile
  end.

(** [readConfigFile] once the configuration file has been found and
    decoded to [profiles]. *)
Definition readConfigFile_profiles (g : Globals) (profiles : list GSPProfile)
  : GSPProfile :=
  if String.eqb (pgpKeyName g) ""
  then readConfigFile_range g profiles zeroProfile
  else zeroProfile.

Definition setDefaultsFromProfile (g : Globals) (profile : GSPProfile) : Globals :=
  let key := if negb (String.eqb (DefaultKey profile) "")
             then DefaultKey profile else pgpKeyName g in
  if negb (String.eqb (GnupgHome profile) "") then
    {| pgpKeyName := key; defaultProfileName := defaultProfileName g;
       defaultPubRing := GnupgHome profile +:+ "/pubring.gpg";
       defaultSecRing := GnupgHome profile +:+ "/secring.gpg" |}
  else
    {| pgpKeyName := key; defaultProfileName := defaultProfileName g;
       defaultPubRing := if negb (String.eqb (DefaultPubRing profile) "")
                         then DefaultPubRing profile else defaultPubRing g;
       defaultSecRing := if negb (String.eqb (DefaultSecRing profile) "")
                         then DefaultSecRing profile else defaultSecRing g |}.

(** [setProfile], for an existing configuration file decoded to [profiles]. *)
Definition setProfile (g : Globals) (profiles : list GSPProfile) : Globals :=
  let profile := readConfigFile_profiles g profiles in
  if negb (String.eqb (Name profile) "") then setDefaultsFromProfile g profile
  else g.

(** ** Trees whose strings all pass a test *)

Fixpoint strings_all (test : string -> bool) (v : Value) : bool :=
  match v with
  | VString str => test str
  | VSlice items => forallb (strings_all test) items
  | VMap entries => forallb (fun kv => strings_all test (snd kv)) entries
  | VNil | VOther _ => true
  end.

(** The computation [f] gives a walkable value whose strings pass [test]
    back unchanged, without error and without a call. *)
Definition leaves_alone (test : string -> bool)
  (f : Value -> M (Value * option error)) (v : Value) : Prop :=
  walkable v = true -> strings_all test v = true ->
  forall w, f v w = Some ((v, None), w).

(** * Properties *)

(** ** Strings *)

Lemma HasPrefix_app (prefix rest : string) :
  HasPrefix (prefix +:+ rest) prefix = true.
Proof.
  induction prefix as [|c prefix IH]; simpl.
  - reflexivity.
  - rewrite Ascii.eqb_refl. exact IH.
Qed.

Lemma Contains_app (pre substr post : string) :
  Contains (pre +:+ substr +:+ post) substr = true.
Proof.
  induction pre as [|c pre IH]; simpl.
  - destruct (substr +:+ post) eqn:E.
    + simpl. rewrite <- E. rewrite HasPrefix_app. reflexivity.
    + simpl. rewrite <- E. rewrite HasPrefix_app. reflexivity.
  - rewrite IH. apply orb_true_r.
Qed.

Lemma Contains_cons_false (c : ascii) (s substr : string) :
  Contains (String c s) substr = false -> Contains s substr = false.
Proof.
  simpl. intros H. apply orb_false_elim in H. tauto.
Qed.

(** ** The monad *)

Lemma bind_ret {A B} (a : A) (k : A -> M B) (w : World) :
  bind (ret a) k w = k a w.
Proof. reflexivity. Qed.

Lemma bind_Some {A B} (m : M A) (k : A -> M B) (w w' : World) (a : A) :
  m w = Some (a, w') -> bind m k w = k a w'.
Proof. unfold bind. intros ->. reflexivity. Qed.

Lemma bind_None {A B} (m : M A) (k : A -> M B) (w : World) :
  m w = None -> bind m k w = None.
Proof. unfold bind. intros ->. reflexivity. Qed.

(** ** The strategies on one scalar *)

Section LeafFacts.
Variable tmp : TmpFile.
Variable s : Sls.

Lemma decryptVal_plain (strVal : string) (w : World) :
  isEncrypted strVal = false ->
  decryptVal s strVal w = Some ((strVal, None), w).
Proof. unfold decryptVal. intros ->. reflexivity. Qed.

Lemma decryptVal_marked (strVal : string) (w : World) :
  isEncrypted strVal = true ->
  decryptVal s strVal w =
  Some (match DecryptSecret (pki s) w strVal with
        | (_, Some e) => (strVal, Some ("error decrypting value: " +:+ e))
        | (plainText, None) => (plainText, None)
        end, w ++ [CallDecryptSecret strVal]).
Proof.
  unfold decryptVal. intros ->. unfold bind, callDecryptSecret.
  destruct (DecryptSecret (pki s) w strVal) as [plainText [e|]]; reflexivity.
Qed.

Lemma rotateVal_plain (strVal : string) (w : World) :
  isEncrypted strVal = false ->
  rotateVal s strVal w =
  Some (EncryptSecret (pki s) w strVal, w ++ [CallEncryptSecret strVal]).
Proof.
  intros H. unfold rotateVal.
  rewrite (bind_Some _ _ _ _ _ (decryptVal_plain strVal w H)). reflexivity.
Qed.

Lemma keyInfo_plain (val : string) (w : World) :
  isEncrypted val = false ->
  keyInfo tmp s val w = Some ((val, Some "value is not encrypted"), w).
Proof. unfold keyInfo. intros ->. reflexivity. Qed.

Lemma doString_Encrypt_plain (val : string) (w : World) :
  isEncrypted val = false ->
  doString tmp s val Encrypt w =
  Some (match EncryptSecret (pki s) w val with
        | (_, Some e) => (val, Some e)
        | (cipherText, None) => (cipherText, None)
        end, w ++ [CallEncryptSecret val]).
Proof.
  intros H. unfold doString. simpl. rewrite H. simpl.
  unfold bind, callEncryptSecret.
  destruct (EncryptSecret (pki s) w val) as [cipherText [e|]]; reflexivity.
Qed.

Lemma doString_Encrypt_marked (val : string) (w : World) :
  isEncrypted val = true ->
  doString tmp s val Encrypt w = Some ((val, None), w).
Proof. intros H. unfold doString. simpl. rewrite H. reflexivity. Qed.

Lemma doString_Validate_plain (val : string) (w : World) :
  isEncrypted val = false ->
  doString tmp s val Validate w = Some ((val, Some "value is not encrypted"), w).
Proof.
  intros H. unfold doString. simpl.
  rewrite (bind_Some _ _ _ _ _ (keyInfo_plain val w H)). reflexivity.
Qed.
End LeafFacts.

(** C1.  Encrypting a scalar that does not carry the marker replaces it
    with the ciphertext of the backend; encrypting that ciphertext again
    gives it back unchanged and calls the backend no second time, so two
    applications in a row end where one does.  The backend is taken to
    answer the call without error and with a ciphertext that bears the
    marker. *)
Theorem doString_encrypt_twice (tmp : TmpFile) (s : Sls) (x c : string) (w : World) :
  isEncrypted x = false ->
  EncryptSecret (pki s) w x = (c, None) ->
  isEncrypted c = true ->
  doString tmp s x Encrypt w = Some ((c, None), w ++ [CallEncryptSecret x])
  /\ doString tmp s c Encrypt (w ++ [CallEncryptSecret x])
     = Some ((c, None), w ++ [CallEncryptSecret x])
  /\ (let! (c1, _) := doString tmp s x Encrypt in doString tmp s c1 Encrypt) w
     = doString tmp s x Encrypt w.
Proof.
  intros Hplain Hbackend Hmarked.
  assert (Hfirst : doString tmp s x Encrypt w
                   = Some ((c, None), w ++ [CallEncryptSecret x])).
  { rewrite doString_Encrypt_plain by exact Hplain. rewrite Hbackend. reflexivity. }
  assert (Hsecond : doString tmp s c Encrypt (w ++ [CallEncryptSecret x])
                    = Some ((c, None), w ++ [CallEncryptSecret x])).
  { apply doString_Encrypt_marked. exact Hmarked. }
  split; [exact Hfirst|]. split; [exact Hsecond|].
  rewrite (bind_Some _ _ _ _ _ Hfirst). rewrite Hfirst. exact Hsecond.
Qed.

Lemma doString_encrypt_twice_witness :
  let s := Sample.new "secrets.sls" "" [] in
  let c := pgpHeader +:+ "hunter2" in
  doString Sample.tmp s "hunter2" Encrypt [] = Some ((c, None), [CallEncryptSecret "hunter2"])
  /\ doString Sample.tmp s c Encrypt [CallEncryptSecret "hunter2"]
     = Some ((c, None), [CallEncryptSecret "hunter2"])
  /\ (let! (c1, _) := doString Sample.tmp s "hunter2" Encrypt in
      doString Sample.tmp s c1 Encrypt) []
     = doString Sample.tmp s "hunter2" Encrypt [].
Proof.
  intros s c.
  apply (doString_encrypt_twice Sample.tmp s "hunter2" c []); reflexivity.
Defined.

(** C7.  On a scalar without the marker the decrypt step of rotate gives
    the scalar back, with no error and no call to the backend; rotate then
    returns what the backend's encryption of that plaintext returns, and
    the rotate action yields the ciphertext when the backend produced one. *)
Theorem rotate_plaintext_is_encrypted (tmp : TmpFile) (s : Sls) (x c : string) (w : World) :
  isEncrypted x = false ->
  EncryptSecret (pki s) w x = (c, None) ->
  decryptVal s x w = Some ((x, None), w)
  /\ rotateVal s x w = Some ((c, None), w ++ [CallEncryptSecret x])
  /\ doString tmp s x Rotate w = Some ((c, None), w ++ [CallEncryptSecret x]).
Proof.
  intros Hplain Hbackend.
  assert (Hrot : rotateVal s x w = Some ((c, None), w ++ [CallEncryptSecret x])).
  { rewrite rotateVal_plain by exact Hplain. rewrite Hbackend. reflexivity. }
  split; [apply decryptVal_plain; exact Hplain|]. split; [exact Hrot|].
  unfold doString. simpl. rewrite (bind_Some _ _ _ _ _ Hrot). reflexivity.
Qed.

Lemma rotate_plaintext_is_encrypted_witness :
  let s := Sample.new "secrets.sls" "" [] in
  decryptVal s "hunter2" [] = Some (("hunter2", None), [])
  /\ rotateVal s "hunter2" []
     = Some ((pgpHeader +:+ "hunter2", None), [CallEncryptSecret "hunter2"])
  /\ doString Sample.tmp s "hunter2" Rotate []
     = Some ((pgpHeader +:+ "hunter2", None), [CallEncryptSecret "hunter2"]).
Proof.
  intros s.
  apply (rotate_plaintext_is_encrypted Sample.tmp s "hunter2" (pgpHeader +:+ "hunter2") []);
    reflexivity.
Defined.

(** C10.  A scalar with the marker text anywhere inside it, not only at its
    start, counts as encrypted: encrypt gives it back unchanged without
    calling the backend, and decrypt hands it to the backend. *)
Theorem marker_anywhere_is_encrypted (tmp : TmpFile) (s : Sls) (pre post : string) (w : World) :
  let x := pre +:+ pgpHeader +:+ post in
  isEncrypted x = true
  /\ doString tmp s x Encrypt w = Some ((x, None), w)
  /\ decryptVal s x w
     = Some (match DecryptSecret (pki s) w x with
             | (_, Some e) => (x, Some ("error decrypting value: " +:+ e))
             | (plainText, None) => (plainText, None)
             end, w ++ [CallDecryptSecret x])
  /\ doString tmp s x Decrypt w
     = Some (match DecryptSecret (pki s) w x with
             | (_, Some e) => (x, Some ("error decrypting value: " +:+ e))
             | (plainText, None) => (plainText, None)
             end, w ++ [CallDecryptSecret x]).
Proof.
  intros x.
  assert (Hmarked : isEncrypted x = true) by apply Contains_app.
  split; [exact Hmarked|].
  split; [apply doString_Encrypt_marked; exact Hmarked|].
  split; [apply decryptVal_marked; exact Hmarked|].
  unfold doString. simpl.
  rewrite (bind_Some _ _ _ _ _ (decryptVal_marked s x w Hmarked)).
  destruct (DecryptSecret (pki s) w x) as [plainText [e|]]; reflexivity.
Qed.

(** ** Reading a document with an include line *)

Lemma HasPrefix_empty (prefix : string) :
  HasPrefix EmptyString prefix = true -> prefix = EmptyString.
Proof. destruct prefix; [reflexivity | discriminate]. Qed.

Lemma Contains_of_HasPrefix (s substr : string) :
  HasPrefix s substr = true -> Contains s substr = true.
Proof. intros H. destruct s; cbn [Contains]; rewrite H; reflexivity. Qed.

(** Cutting the carriage return off a line keeps a prefix that has none. *)
Lemma HasPrefix_dropCR (prefix : string) :
  ContainsByte prefix CR = false ->
  forall raw, HasPrefix raw prefix = true -> HasPrefix (dropCR raw) prefix = true.
Proof.
  induction prefix as [|a prefix IH]; intros Hcr raw H.
  - reflexivity.
  - destruct raw as [|b raw]; [discriminate H|].
    cbn [HasPrefix] in H. apply andb_true_iff in H. destruct H as [Hab Hrest].
    cbn [ContainsByte] in Hcr. apply orb_false_elim in Hcr. destruct Hcr as [Ha Hcr].
    apply Ascii.eqb_eq in Hab. subst b.
    destruct raw as [|b' raw'].
    + apply HasPrefix_empty in Hrest. subst prefix.
      cbn [dropCR]. rewrite Ha. cbn [HasPrefix]. rewrite Ascii.eqb_refl. reflexivity.
    + change (dropCR (String a (String b' raw')))
        with (String a (dropCR (String b' raw'))).
      cbn [HasPrefix]. rewrite Ascii.eqb_refl. cbn [andb].
      apply (IH Hcr). exact Hrest.
Qed.

Lemma Contains_dropCR (substr : string) :
  ContainsByte substr CR = false ->
  forall raw, Contains raw substr = true -> Contains (dropCR raw) substr = true.
Proof.
  intros Hcr. induction raw as [|b raw IH]; intros H.
  - exact H.
  - cbn [Contains] in H. apply orb_true_iff in H. destruct H as [H|H].
    + apply Contains_of_HasPrefix. apply (HasPrefix_dropCR _ Hcr). exact H.
    + destruct raw as [|b' raw'].
      * apply Contains_of_HasPrefix.
        cbn [Contains] in H. rewrite orb_false_r in H.
        apply (HasPrefix_dropCR _ Hcr).
        apply HasPrefix_empty in H. subst substr. reflexivity.
      * change (dropCR (String b (String b' raw')))
          with (String b (dropCR (String b' raw'))).
        cbn [Contains]. rewrite (IH H). apply orb_true_r.
Qed.

Section ReadingFacts.
Variable os : OS.
Variable Unmarshal : string -> Values * option error.

(** A line with [include:] in it makes the scan return an error. *)
Lemma ScanForIncludes_lines_detects (s : Sls) (lines : list string) :
  List.Exists (fun raw => Contains raw "include:" = true) lines ->
  ScanForIncludes_lines os s lines <> None.
Proof.
  induction lines as [|raw lines IH]; intros Hex.
  - inversion Hex.
  - cbn [ScanForIncludes_lines].
    destruct (MaxScanTokenSize <=? N.of_nat (String.length raw))%N; [discriminate|].
    destruct (Contains (dropCR raw) "include:") eqn:Hline; [discriminate|].
    apply IH. inversion Hex as [? ? Hraw|? ? Hrest]; subst; [|exact Hrest].
    rewrite (Contains_dropCR "include:" eq_refl raw Hraw) in Hline. discriminate Hline.
Qed.

(** X19.  Whenever some line of the buffer has [include:] in it,
    [ReadBytes] raises the flag and returns what the parser returns. *)
Lemma ReadBytes_with_include (s : Sls) (buf : string) :
  List.Exists (fun raw => Contains raw "include:" = true) (rawLines buf) ->
  ReadBytes os Unmarshal s buf
  = (snd (Unmarshal buf),
     set_Yaml (set_IsInclude (set_Yaml s []) true) (fst (Unmarshal buf))).
Proof.
  intros Hex. unfold ReadBytes, ScanForIncludes.
  destruct (ScanForIncludes_lines os (set_Yaml s []) (rawLines buf)) as [e|] eqn:Hscan.
  - destruct (Unmarshal buf) as [values err]. reflexivity.
  - exfalso. exact (ScanForIncludes_lines_detects _ _ Hex Hscan).
Qed.

(** Whatever the scan finds, [ReadBytes] answers with the verdict of the
    parser and keeps what the parser decoded. *)
Lemma ReadBytes_is_Unmarshal (s : Sls) (buf : string) :
  fst (ReadBytes os Unmarshal s buf) = snd (Unmarshal buf)
  /\ Yaml (snd (ReadBytes os Unmarshal s buf)) = fst (Unmarshal buf).
Proof.
  unfold ReadBytes. destruct (Unmarshal buf) as [values err]. simpl. tauto.
Qed.

(** C2.  On a document whose first line is [include:], the scan reports
    the include, but [ReadBytes] only raises the [IsInclude] flag: the
    document is handed to the parser all the same, and the parser's
    values and the parser's error are what the call leaves and returns. *)
Theorem ReadBytes_parses_included_document (s : Sls) :
  ScanForIncludes os (set_Yaml s []) Docs.with_include
  = Some (shortFileName os (FilePath s) +:+ " contains include directives")
  /\ ReadBytes os Unmarshal s Docs.with_include
     = (snd (Unmarshal Docs.with_include),
        set_Yaml (set_IsInclude (set_Yaml s []) true) (fst (Unmarshal Docs.with_include))).
Proof.
  split.
  - reflexivity.
  - unfold ReadBytes.
    replace (ScanForIncludes os (set_Yaml s []) Docs.with_include)
      with (Some (shortFileName os (FilePath s) +:+ " contains include directives"))
      by reflexivity.
    destruct (Unmarshal Docs.with_include) as [values err]. reflexivity.
Qed.
End ReadingFacts.

(** ** Writing over an existing file *)

(** X10.  A failure ahead of the copy is reported and leaves the
    destination as it was. *)
Lemma atomicWrite_early_failure (os : OS) (fs : gmap string Node)
  (fullPath buffer : string) :
  Abs os (tempOf os fullPath) <> Abs os fullPath ->
  fails_before_copy os fullPath ->
  snd (fst (atomicWrite os fs fullPath buffer)) <> None
  /\ snd (atomicWrite os fs fullPath buffer) !! Abs os fullPath = fs !! Abs os fullPath.
Proof.
  intros Hfresh Hfails. unfold fails_before_copy, tempOf in *.
  unfold atomicWrite, TempFile.
  destruct (fault os (SysTempFile ("gsp-" +:+ path_Split_file fullPath))) as [e|].
  { simpl. split; [discriminate | reflexivity]. }
  set (f := tempName os ("gsp-" +:+ path_Split_file fullPath)) in *.
  unfold fileWrite.
  destruct (fault os (SysWrite f)) as [e|].
  { destruct (fault os (SysClose f)), (fault os (SysChmod f)); simpl;
      (split; [discriminate|]); rewrite !lookup_insert_ne by exact Hfresh; reflexivity. }
  destruct (fault os (SysSync f)) as [e|].
  { destruct (fault os (SysClose f)), (fault os (SysChmod f)); simpl;
      (split; [discriminate|]); rewrite !lookup_insert_ne by exact Hfresh; reflexivity. }
  destruct (fault os (SysClose f)) as [e|].
  { destruct (fault os (SysChmod f)); simpl;
      (split; [discriminate|]); rewrite !lookup_insert_ne by exact Hfresh; reflexivity. }
  destruct (fault os (SysChmod f)) as [e|].
  { simpl. split; [discriminate|].
    rewrite !lookup_insert_ne by exact Hfresh. reflexivity. }
  exfalso. intuition congruence.
Qed.

(** C3.  The disk fills up four bytes into the copy: [atomicWrite] reports
    the error, and the destination, which held [old_content], is left with
    the first four bytes of the new content. *)
Theorem atomicWrite_failed_copy_truncates :
  let fs : gmap string Node := {[ Docs.destination := RegularFile Docs.old_content ]} in
  let r := atomicWrite Sample.disk_full fs Docs.destination Docs.new_content in
  fst r = (String.length Docs.new_content, Some "no space left on device")
  /\ snd r !! Docs.destination = Some (RegularFile "#!ya")
  /\ fs !! Docs.destination = Some (RegularFile Docs.old_content).
Proof. vm_compute. repeat split; reflexivity. Qed.

(** ** The walker on values that are not strings *)

(** C4.  A mapping loses the key whose value is a number; a sequence loses
    its numbers; a mapping is cut off at the first null value; a null in a
    sequence stops the program; a number at the top becomes null. *)
Theorem walker_changes_structure :
  let s := Sample.new "secrets.sls" "" [] in
  let c := pgpHeader +:+ "hunter2" in
  ProcessValues Sample.tmp s Docs.port_and_password Encrypt []
  = Some ((VMap [(KString "password", VString c)], None), [CallEncryptSecret "hunter2"])
  /\ ProcessValues Sample.tmp s (VSlice [VOther (OInt 1); VString "hunter2"]) Encrypt []
     = Some ((VSlice [VString c], None), [CallEncryptSecret "hunter2"])
  /\ ProcessValues Sample.tmp s Docs.null_then_password Encrypt []
     = Some ((VMap [], None), [])
  /\ ProcessValues Sample.tmp s (VSlice [VString "hunter2"; VNil]) Encrypt [] = None
  /\ ProcessValues Sample.tmp s (VOther (OInt 8080)) Encrypt [] = Some ((VNil, None), []).
Proof. repeat split; reflexivity. Qed.

(** ** Errors inside a mapping *)

(** C5.  Decrypting the first entry of a mapping fails, the second entry
    is then processed without error, and [doMap] returns no error at all;
    [PerformAction] stores and formats the result.  The same two scalars in
    a sequence make [doSlice] return the error. *)
Theorem doMap_loses_leaf_error :
  let s := Sample.new "secrets.sls" "" [("secure_vars", VMap Docs.bad_then_plain)] in
  let e := "error decrypting value: no armored data found" in
  doString Sample.tmp s Docs.not_armoured Decrypt []
  = Some ((Docs.not_armoured, Some e), [CallDecryptSecret Docs.not_armoured])
  /\ doMap Sample.tmp s Docs.bad_then_plain Decrypt []
     = Some ((VMap Docs.bad_then_plain, None), [CallDecryptSecret Docs.not_armoured])
  /\ (exists buf,
       PerformAction Sample.Marshal Sample.tmp s Decrypt []
       = Some ((buf, None), s, [CallDecryptSecret Docs.not_armoured]))
  /\ doSlice Sample.tmp s (VSlice [VString Docs.not_armoured; VString "plain"]) Decrypt []
     = Some ((VSlice [VString Docs.not_armoured; VString "plain"], Some e),
             [CallDecryptSecret Docs.not_armoured]).
Proof.
  repeat split; try reflexivity.
  eexists. vm_compute. reflexivity.
Qed.

(** ** Maps, keys and paths *)

Lemma mapaccess_mapassign_same {V} (m : list (string * V)) (k : string) (v : V) :
  mapaccess String.eqb (mapassign String.eqb m k v) k = Some v.
Proof.
  induction m as [|[k' v'] m IH]; simpl.
  - rewrite String.eqb_refl. reflexivity.
  - destruct (String.eqb k' k) eqn:E; simpl; rewrite E; [reflexivity | exact IH].
Qed.

Lemma mapaccess_mapassign_other {V} (m : list (string * V)) (k k' : string) (v : V) :
  k <> k' ->
  mapaccess String.eqb (mapassign String.eqb m k v) k' = mapaccess String.eqb m k'.
Proof.
  intros Hne. induction m as [|[k0 v0] m IH]; simpl.
  - apply String.eqb_neq in Hne. rewrite Hne. reflexivity.
  - destruct (String.eqb k0 k) eqn:E; simpl.
    + apply String.eqb_eq in E. subst k0.
      apply String.eqb_neq in Hne. rewrite Hne. reflexivity.
    + rewrite IH. reflexivity.
Qed.

Lemma mapaccess_In {V} (m : list (string * V)) (k : string) :
  In k (map fst m) -> exists v, mapaccess String.eqb m k = Some v.
Proof.
  induction m as [|[k' v'] m IH]; simpl; intros Hin.
  - contradiction.
  - destruct (String.eqb k' k) eqn:E.
    + eexists. reflexivity.
    + apply String.eqb_neq in E. destruct Hin as [Heq|Hin]; [contradiction | auto].
Qed.

Lemma mapaccess_not_In {V} (m : list (string * V)) (k : string) :
  ~ In k (map fst m) -> mapaccess String.eqb m k = None.
Proof.
  induction m as [|[k' v'] m IH]; simpl; intros Hnotin.
  - reflexivity.
  - destruct (String.eqb k' k) eqn:E.
    + apply String.eqb_eq in E. tauto.
    + apply IH. tauto.
Qed.

Lemma Split_without_separator (key : string) :
  Contains key ":" = false -> Split key colon = [key].
Proof.
  induction key as [|c key IH]; intros H.
  - reflexivity.
  - pose proof (Contains_cons_false _ _ _ H) as Hrest.
    assert (Hc : Ascii.eqb c colon = false).
    { destruct (Ascii.eqb c colon) eqn:E; [|reflexivity].
      apply Ascii.eqb_eq in E. subst c. simpl in H. discriminate H. }
    cbn [Split]. rewrite Hc, (IH Hrest). reflexivity.
Qed.

(** A key without a colon is read back as the value stored under it. *)
Lemma GetValueFromPath_key (s : Sls) (key : string) :
  Contains key ":" = false ->
  GetValueFromPath s key = default VNil (mapaccess String.eqb (Yaml s) key).
Proof.
  intros H. unfold GetValueFromPath. rewrite (Split_without_separator key H).
  simpl. destruct (mapaccess String.eqb (Yaml s) key); reflexivity.
Qed.

(** ** The loop of [PerformAction] under a top-level element *)

Section ScopeFacts.
Variable tmp : TmpFile.
Variable s : Sls.
Variable action : string.
Hypothesis scoped : EncryptionPath s <> "".

Lemma scoped_test : negb (String.eqb (EncryptionPath s) "") = true.
Proof using scoped.
  apply negb_true_iff. apply String.eqb_neq. exact scoped.
Qed.

(** What the loop leaves under a key that is not the scope. *)
Lemma range_other_key (key : string) :
  key <> EncryptionPath s ->
  forall keys stuff w stuff' w',
    PerformAction_range tmp s action keys stuff w = Some ((stuff', None), w') ->
    (In key keys -> mapaccess String.eqb stuff' key = Some (GetValueFromPath s key))
    /\ (~ In key keys -> mapaccess String.eqb stuff' key = mapaccess String.eqb stuff key).
Proof using scoped.
  intros Hkey. induction keys as [|a keys IH]; intros stuff w stuff' w' Hrun.
  - simpl in Hrun. injection Hrun as <- <-. split; [intros [] | reflexivity].
  - simpl in Hrun. rewrite scoped_test in Hrun.
    destruct (String.eqb (EncryptionPath s) a) eqn:Ea.
    + apply String.eqb_eq in Ea.
      unfold bind in Hrun.
      destruct (ProcessValues tmp s (GetValueFromPath s a) action w)
        as [[[v [e|]] w1]|]; try discriminate.
      destruct (IH _ _ _ _ Hrun) as [Hin Hout].
      assert (Hne : a <> key) by congruence.
      split; intros H.
      * destruct H as [H|H]; [contradiction | auto].
      * rewrite Hout by (simpl in H; tauto).
        apply mapaccess_mapassign_other. exact Hne.
    + destruct (IH _ _ _ _ Hrun) as [Hin Hout].
      split; intros H.
      * destruct (in_dec string_dec key keys) as [Hk|Hk]; [auto|].
        destruct H as [H|H]; [subst a | contradiction].
        rewrite Hout by exact Hk. apply mapaccess_mapassign_same.
      * rewrite Hout by (simpl in H; tauto).
        apply mapaccess_mapassign_other. simpl in H. tauto.
Qed.

(** Without the scope among the keys the loop calls nothing. *)
Lemma range_without_scope :
  forall keys stuff w r w',
    ~ In (EncryptionPath s) keys ->
    PerformAction_range tmp s action keys stuff w = Some (r, w') ->
    w' = w /\ snd r = None
    /\ mapaccess String.eqb (fst r) (EncryptionPath s)
       = mapaccess String.eqb stuff (EncryptionPath s).
Proof using scoped.
  induction keys as [|a keys IH]; intros stuff w r w' Hnotin Hrun.
  - simpl in Hrun. injection Hrun as <- <-. auto.
  - simpl in Hrun. rewrite scoped_test in Hrun.
    destruct (String.eqb (EncryptionPath s) a) eqn:Ea.
    + apply String.eqb_eq in Ea. exfalso. apply Hnotin. left. symmetry. exact Ea.
    + apply String.eqb_neq in Ea.
      destruct (IH _ _ _ _ (fun H => Hnotin (or_intror H)) Hrun) as (-> & Hr & Hget).
      repeat split; [exact Hr|]. rewrite Hget.
      apply mapaccess_mapassign_other. congruence.
Qed.

(** With the scope among the keys, the loop is one [ProcessValues]. *)
Lemma range_with_scope :
  forall keys stuff w stuff' w',
    List.NoDup keys ->
    In (EncryptionPath s) keys ->
    PerformAction_range tmp s action keys stuff w = Some ((stuff', None), w') ->
    exists v',
      ProcessValues tmp s (GetValueFromPath s (EncryptionPath s)) action w
      = Some ((v', None), w')
      /\ mapaccess String.eqb stuff' (EncryptionPath s) = Some v'.
Proof using scoped.
  induction keys as [|a keys IH]; intros stuff w stuff' w' Hnodup Hin Hrun.
  - destruct Hin.
  - inversion Hnodup as [|? ? Ha Hkeys]; subst.
    simpl in Hrun. rewrite scoped_test in Hrun.
    destruct (String.eqb (EncryptionPath s) a) eqn:Ea.
    + apply String.eqb_eq in Ea. subst a.
      unfold bind in Hrun.
      destruct (ProcessValues tmp s (GetValueFromPath s (EncryptionPath s)) action w)
        as [[[v [e|]] w1]|]; try discriminate.
      destruct (range_without_scope _ _ _ _ _ Ha Hrun) as (-> & _ & Hget).
      exists v. split; [reflexivity|].
      simpl in Hget. rewrite Hget. apply mapaccess_mapassign_same.
    + apply String.eqb_neq in Ea.
      destruct Hin as [Hin|Hin]; [congruence|].
      exact (IH _ _ _ _ Hkeys Hin Hrun).
Qed.

Variable Marshal : Values -> string * option error.

Lemma formatted_after (stuff : Values) :
  formatted (if negb (String.eqb action Validate) then set_Yaml s stuff
             else set_KeyMap s stuff) action = stuff.
Proof. unfold formatted. destruct (String.eqb action Validate); reflexivity. Qed.

Lemma invalid_action_formats_document :
  validAction action = false -> formatted s action = Yaml s.
Proof.
  unfold validAction, formatted. intros H.
  destruct (String.eqb action Validate); [|reflexivity].
  rewrite orb_true_r in H. discriminate.
Qed.

Lemma passed_through_without_colon (key : string) :
  key <> EncryptionPath s ->
  Contains key ":" = false ->
  passed_through Marshal tmp s action key.
Proof using scoped.
  intros Hkey Hcolon w buf s' w' Hrun. unfold PerformAction in Hrun.
  destruct (validAction action) eqn:Hvalid.
  - unfold bind in Hrun.
    destruct (PerformAction_range tmp s action (map fst (Yaml s)) [] w)
      as [[[stuff [e|]] w1]|] eqn:Hrange; try discriminate.
    unfold ret in Hrun. injection Hrun as _ <- _.
    rewrite formatted_after.
    destruct (range_other_key key Hkey _ _ _ _ _ Hrange) as [Hin Hout].
    destruct (in_dec string_dec key (map fst (Yaml s))) as [Hk|Hk].
    + rewrite (Hin Hk), (GetValueFromPath_key s key Hcolon).
      destruct (mapaccess_In _ _ Hk) as [v ->]. reflexivity.
    + rewrite (Hout Hk). simpl. symmetry. apply mapaccess_not_In. exact Hk.
  - unfold ret in Hrun. injection Hrun as _ <- _.
    rewrite invalid_action_formats_document by exact Hvalid. reflexivity.
Qed.

Lemma processed_alone_without_colon :
  validAction action = true ->
  List.NoDup (map fst (Yaml s)) ->
  Contains (EncryptionPath s) ":" = false ->
  processed_alone Marshal tmp s action (EncryptionPath s).
Proof using scoped.
  intros Hvalid Hnodup Hcolon w v buf s' w' Hv Hrun. unfold PerformAction in Hrun.
  rewrite Hvalid in Hrun. unfold bind in Hrun.
  destruct (PerformAction_range tmp s action (map fst (Yaml s)) [] w)
    as [[[stuff [e|]] w1]|] eqn:Hrange; try discriminate.
  unfold ret in Hrun. injection Hrun as _ <- <-.
  rewrite formatted_after.
  assert (Hin : In (EncryptionPath s) (map fst (Yaml s))).
  { destruct (in_dec string_dec (EncryptionPath s) (map fst (Yaml s))) as [H|H];
      [exact H|]. rewrite (mapaccess_not_In _ _ H) in Hv. discriminate. }
  destruct (range_with_scope _ _ _ _ _ Hnodup Hin Hrange) as (v' & Hproc & Hget).
  rewrite (GetValueFromPath_key s _ Hcolon), Hv in Hproc. simpl in Hproc.
  exists v'. split; assumption.
Qed.
End ScopeFacts.

(** C6, as amended.  Under a top-level element scope, every other
    top-level key that contains no colon has in the output the value it
    had in the document; and when the scope itself contains no colon, the
    call does to the backend exactly what processing the value stored
    under the scope does, and puts that result under the scope. *)
Theorem scope_isolation (Marshal : Values -> string * option error) (tmp : TmpFile)
  (s : Sls) (action : string) :
  EncryptionPath s <> "" ->
  (forall key, key <> EncryptionPath s -> Contains key ":" = false ->
               passed_through Marshal tmp s action key)
  /\ (validAction action = true -> List.NoDup (map fst (Yaml s)) ->
      Contains (EncryptionPath s) ":" = false ->
      processed_alone Marshal tmp s action (EncryptionPath s)).
Proof.
  intros Hscoped. split.
  - intros key. apply passed_through_without_colon. exact Hscoped.
  - apply processed_alone_without_colon. exact Hscoped.
Qed.

Lemma scope_isolation_witness :
  let s := Sample.new "secrets.sls" "x" [("port", VOther (OInt 8080)); ("x", VString "secret")] in
  passed_through Sample.Marshal Sample.tmp s Encrypt "port"
  /\ processed_alone Sample.Marshal Sample.tmp s Encrypt "x".
Proof.
  intros s.
  destruct (scope_isolation Sample.Marshal Sample.tmp s Encrypt) as [Hother Hscope].
  - discriminate.
  - split.
    + apply Hother; [discriminate | reflexivity].
    + apply Hscope; [reflexivity | | reflexivity].
      repeat constructor; simpl; intuition discriminate.
Defined.

(** C6, as stated, fails: the top-level key [a:b] is read back as the path
    [a], [b], which leads nowhere, and appears in the output with a null
    value in place of its own. *)
Lemma scope_isolation_fails_on_colon_key :
  ~ (forall Marshal tmp s action key,
        EncryptionPath s <> "" -> key <> EncryptionPath s ->
        passed_through Marshal tmp s action key).
Proof.
  intros claim.
  pose (s := Sample.new "secrets.sls" "x" Docs.colon_key).
  assert (Hscope : EncryptionPath s <> "") by discriminate.
  assert (Hkey : "a:b" <> EncryptionPath s) by discriminate.
  specialize (claim Sample.Marshal Sample.tmp s Encrypt "a:b" Hscope Hkey).
  unfold passed_through in claim.
  specialize (claim [] _ _ _ eq_refl).
  vm_compute in claim. discriminate.
Qed.

(** ** Identifying keys in a document with a plaintext scalar *)

Section ValidateFacts.
Variable tmp : TmpFile.
Variable s : Sls.
Variables key str : string.
Hypothesis stored : GetValueFromPath s key = VString str.
Hypothesis plain : isEncrypted str = false.
Hypothesis in_scope : EncryptionPath s = "" \/ EncryptionPath s = key.

Lemma ProcessValues_Validate_plain (w : World) :
  ProcessValues tmp s (VString str) Validate w
  = Some ((VString str, Some "value is not encrypted"), w).
Proof using plain.
  simpl. rewrite (bind_Some _ _ _ _ _ (doString_Validate_plain tmp s str w plain)).
  reflexivity.
Qed.

(** The loop over keys that include [key] never ends without error. *)
Lemma range_plaintext_fails :
  forall keys stuff w stuff' w',
    In key keys ->
    PerformAction_range tmp s Validate keys stuff w <> Some ((stuff', None), w').
Proof using stored plain in_scope.
  induction keys as [|a keys IH]; intros stuff w stuff' w' Hin Hrun.
  - destruct Hin.
  - assert (Hstep : forall stuff0,
               (let! (v, err) := ProcessValues tmp s (GetValueFromPath s a) Validate in
                let stuff1 := mapassign String.eqb stuff0 a v in
                match err with
                | Some e => ret (stuff1, Some e)
                | None => PerformAction_range tmp s Validate keys stuff1
                end) w <> Some ((stuff', None), w')).
    { intros stuff0 H. destruct Hin as [->|Hin].
      - rewrite stored in H.
        rewrite (bind_Some _ _ _ _ _ (ProcessValues_Validate_plain w)) in H.
        discriminate H.
      - unfold bind in H.
        destruct (ProcessValues tmp s (GetValueFromPath s a) Validate w)
          as [[[v [e|]] w1]|]; try discriminate.
        exact (IH _ _ _ _ Hin H). }
    simpl in Hrun.
    destruct (negb (String.eqb (EncryptionPath s) "")) eqn:Hmode.
    + destruct (String.eqb (EncryptionPath s) a) eqn:Ea.
      * exact (Hstep _ Hrun).
      * apply String.eqb_neq in Ea.
        apply negb_true_iff, String.eqb_neq in Hmode.
        destruct Hin as [->|Hin].
        -- destruct in_scope; contradiction.
        -- exact (IH _ _ _ _ Hin Hrun).
    + exact (Hstep _ Hrun).
Qed.
End ValidateFacts.

(** C8, as amended.  A plaintext scalar makes [keyInfo] answer
    "value is not encrypted" without a call to the backend; as the value
    of a top-level key within the scope it makes the pass over the whole
    document or the whole scope fail: the call never returns without
    error, returns an empty buffer with the error, and stores no result
    mapping. *)
Theorem validate_plaintext_scalar_aborts (Marshal : Values -> string * option error)
  (tmp : TmpFile) (s : Sls) (key str : string) (w : World) :
  In key (map fst (Yaml s)) ->
  GetValueFromPath s key = VString str ->
  isEncrypted str = false ->
  EncryptionPath s = "" \/ EncryptionPath s = key ->
  keyInfo tmp s str w = Some ((str, Some "value is not encrypted"), w)
  /\ ProcessValues tmp s (VString str) Validate w
     = Some ((VString str, Some "value is not encrypted"), w)
  /\ ~ completes Marshal tmp s Validate w
  /\ (forall buf err s' w',
        PerformAction Marshal tmp s Validate w = Some ((buf, err), s', w') ->
        buf = "" /\ err <> None /\ s' = s).
Proof.
  intros Hin Hstored Hplain Hscope.
  split; [apply keyInfo_plain; exact Hplain|].
  split; [apply ProcessValues_Validate_plain; exact Hplain|].
  assert (Hrun : forall buf err s' w',
             PerformAction Marshal tmp s Validate w = Some ((buf, err), s', w') ->
             buf = "" /\ err <> None /\ s' = s).
  { intros buf err s' w' H. unfold PerformAction in H.
    change (validAction Validate) with true in H. cbv iota in H.
    unfold bind in H.
    destruct (PerformAction_range tmp s Validate (map fst (Yaml s)) [] w)
      as [[[stuff [e|]] w1]|] eqn:Hrange; try discriminate.
    - unfold ret in H. injection H as <- <- <- _. repeat split. discriminate.
    - exfalso.
      exact (range_plaintext_fails tmp s key str Hstored Hplain Hscope _ _ _ _ _ Hin Hrange). }
  split; [|exact Hrun].
  intros (buf & s' & w' & H). destruct (Hrun _ _ _ _ H) as (_ & Herr & _).
  apply Herr. reflexivity.
Qed.

Lemma validate_plaintext_scalar_aborts_witness :
  let s := Sample.new "secrets.sls" "" Docs.one_password in
  keyInfo Sample.tmp s "hunter2" [] = Some (("hunter2", Some "value is not encrypted"), [])
  /\ ProcessValues Sample.tmp s (VString "hunter2") Validate []
     = Some ((VString "hunter2", Some "value is not encrypted"), [])
  /\ ~ completes Sample.Marshal Sample.tmp s Validate []
  /\ (forall buf err s' w',
        PerformAction Sample.Marshal Sample.tmp s Validate [] = Some ((buf, err), s', w') ->
        buf = "" /\ err <> None /\ s' = s).
Proof.
  intros s.
  apply (validate_plaintext_scalar_aborts Sample.Marshal Sample.tmp s "password" "hunter2" []).
  - simpl. left. reflexivity.
  - reflexivity.
  - reflexivity.
  - left. reflexivity.
Defined.

(** C8, as stated, fails: on a document whose only value is the plaintext
    [hunter2], identifying keys over the whole document ends with the
    error "value is not encrypted"; the pass does not complete. *)
Lemma validate_whole_document_aborts :
  let s := Sample.new "secrets.sls" "" Docs.one_password in
  PerformAction Sample.Marshal Sample.tmp s Validate []
  = Some (("", Some "value is not encrypted"), s, [])
  /\ ~ completes Sample.Marshal Sample.tmp s Validate [].
Proof.
  intros s. split; [reflexivity|].
  intros (buf & s' & w' & H). vm_compute in H. discriminate H.
Qed.

(** ** Reading a file that does not exist *)

Section MkdirFacts.
Implicit Types fs : gmap string Node.

Lemma mkdir_keeps fs (d q : string) (n : Node) :
  fs !! q = Some n -> mkdir fs d !! q = Some n.
Proof.
  intros Hq. unfold mkdir. destruct (fs !! d) eqn:Hd; [exact Hq|].
  rewrite lookup_insert_ne; [exact Hq|]. intros ->. congruence.
Qed.

Lemma mkdir_other fs (d q : string) :
  q <> d -> mkdir fs d !! q = fs !! q.
Proof.
  intros Hne. unfold mkdir. destruct (fs !! d); [reflexivity|].
  apply lookup_insert_ne. congruence.
Qed.

Lemma mkdir_isRegular fs (d q : string) :
  isRegular (mkdir fs d) q = isRegular fs q.
Proof.
  unfold isRegular. destruct (String.eqb q d) eqn:E.
  - apply String.eqb_eq in E. subst q. unfold mkdir.
    destruct (fs !! d) eqn:Hd; [rewrite Hd; reflexivity|].
    rewrite lookup_insert_eq. reflexivity.
  - apply String.eqb_neq in E. rewrite mkdir_other by exact E. reflexivity.
Qed.

Lemma existsb_isRegular_mkdir fs (a : string) (chain : list string) :
  existsb (isRegular (mkdir fs a)) chain = existsb (isRegular fs) chain.
Proof.
  induction chain as [|q chain IH]; simpl; [reflexivity|].
  rewrite mkdir_isRegular, IH. reflexivity.
Qed.

Lemma fold_mkdir_keeps (chain : list string) fs (q : string) (n : Node) :
  fs !! q = Some n -> fold_left mkdir chain fs !! q = Some n.
Proof.
  revert fs. induction chain as [|d chain IH]; intros fs Hq; simpl.
  - exact Hq.
  - apply IH. apply mkdir_keeps. exact Hq.
Qed.

Lemma fold_mkdir_other (chain : list string) fs (q : string) :
  ~ In q chain -> fold_left mkdir chain fs !! q = fs !! q.
Proof.
  revert fs. induction chain as [|d chain IH]; intros fs Hq; simpl.
  - reflexivity.
  - rewrite IH by (simpl in Hq; tauto).
    apply mkdir_other. simpl in Hq. intros ->. tauto.
Qed.

Lemma fold_mkdir_makes (chain : list string) fs (d : string) :
  existsb (isRegular fs) chain = false ->
  In d chain ->
  fold_left mkdir chain fs !! d = Some Directory.
Proof.
  revert fs. induction chain as [|a chain IH]; intros fs Hreg Hin; simpl.
  - destruct Hin.
  - simpl in Hreg. apply orb_false_elim in Hreg. destruct Hreg as [Ha Hchain].
    assert (Hchain' : existsb (isRegular (mkdir fs a)) chain = false).
    { rewrite existsb_isRegular_mkdir. exact Hchain. }
    destruct (in_dec string_dec d chain) as [Hd|Hd]; [exact (IH _ Hchain' Hd)|].
    destruct Hin as [->|Hin]; [|contradiction].
    apply fold_mkdir_keeps. unfold mkdir, isRegular in *.
    destruct (fs !! d) as [[content|]|] eqn:E.
    + discriminate Ha.
    + exact E.
    + apply lookup_insert_eq.
Qed.
End MkdirFacts.

Lemma length_nonempty (path : string) :
  path <> "" -> Nat.eqb (String.length path) 0 = false.
Proof. destruct path; [contradiction | reflexivity]. Qed.

(** C9.  For a path that is given, is not the standard output and names
    nothing in the file system, on a system that answers every call
    without a fault and where no ancestor of the path is a regular file,
    [ReadSlsFile] returns no error, leaves an empty document, and leaves a
    file system in which the path is an empty regular file and its
    directory and every ancestor of it are directories; nothing else
    changes.  The parser is taken to decode the empty buffer to no values. *)
Theorem ReadSlsFile_creates_missing_file (os : OS)
  (Unmarshal : string -> Values * option error) (fs : gmap string Node) (s : Sls) :
  FilePath s <> "" ->
  FilePath s <> Stdout_Name ->
  (forall call, fault os call = None) ->
  fs !! Abs os (FilePath s) = None ->
  Abs os (Abs os (FilePath s)) = Abs os (FilePath s) ->
  existsb (isRegular fs) (pathChain (Abs os (Dir os (FilePath s)))) = false ->
  ~ In (Abs os (FilePath s)) (pathChain (Abs os (Dir os (FilePath s)))) ->
  Unmarshal "" = ([], None) ->
  exists fs',
    ReadSlsFile os Unmarshal fs s = ((None, set_Yaml s []), fs')
    /\ fs' !! Abs os (FilePath s) = Some (RegularFile "")
    /\ (forall d, In d (pathChain (Abs os (Dir os (FilePath s)))) ->
                  fs' !! d = Some Directory)
    /\ (forall q, q <> Abs os (FilePath s) ->
                  ~ In q (pathChain (Abs os (Dir os (FilePath s)))) ->
                  fs' !! q = fs !! q).
Proof.
  intros Hgiven Hstdout Hfault Habsent Habs Hregular Hself Hempty.
  set (path := FilePath s) in *.
  set (chain := pathChain (Abs os (Dir os path))) in *.
  exists (<[Abs os path := RegularFile ""]> (fold_left mkdir chain fs)).
  assert (Hmade : fold_left mkdir chain fs !! Abs os path = None).
  { rewrite fold_mkdir_other by exact Hself. exact Habsent. }
  split.
  - unfold ReadSlsFile. fold path.
    rewrite (length_nonempty path Hgiven).
    apply String.eqb_neq in Hstdout. rewrite Hstdout.
    unfold Stat. rewrite Hfault, Habsent. cbn [IsNotExist].
    unfold MkdirAll. rewrite Hfault. fold chain. rewrite Hregular.
    unfold OpenFile_create. rewrite Hfault, Hmade.
    unfold filepath_Abs. rewrite Hfault.
    unfold ReadFile. rewrite Hfault, Habs, lookup_insert_eq.
    unfold ReadBytes. rewrite Hempty. reflexivity.
  - split; [apply lookup_insert_eq|]. split.
    + intros d Hd.
      rewrite lookup_insert_ne by (intros Heq; apply Hself; rewrite Heq; exact Hd).
      apply fold_mkdir_makes; assumption.
    + intros q Hq Hchain. rewrite lookup_insert_ne by congruence.
      apply fold_mkdir_other. exact Hchain.
Qed.

Lemma ReadSlsFile_creates_missing_file_witness :
  let s := Sample.new "/srv/pillar/new/secrets.sls" "" [] in
  let fs : gmap string Node := {[ Docs.destination := RegularFile Docs.old_content ]} in
  exists fs',
    ReadSlsFile Sample.healthy Sample.Unmarshal fs s = ((None, set_Yaml s []), fs')
    /\ fs' !! "/srv/pillar/new/secrets.sls" = Some (RegularFile "")
    /\ (forall d, In d ["/srv"; "/srv/pillar"; "/srv/pillar/new"] ->
                  fs' !! d = Some Directory)
    /\ (forall q, q <> "/srv/pillar/new/secrets.sls" ->
                  ~ In q ["/srv"; "/srv/pillar"; "/srv/pillar/new"] ->
                  fs' !! q = fs !! q).
Proof.
  intros s fs.
  apply (ReadSlsFile_creates_missing_file Sample.healthy Sample.Unmarshal fs s).
  - discriminate.
  - discriminate.
  - intros call. reflexivity.
  - vm_compute. reflexivity.
  - reflexivity.
  - vm_compute. reflexivity.
  - simpl. intuition discriminate.
  - reflexivity.
Defined.

(** * Further properties of the package *)

(** ** What a failed action returns *)

Lemma doString_error (tmp : TmpFile) (s : Sls) (val action : string)
  (w : World) v e w' :
  doString tmp s val action w = Some ((v, Some e), w') -> v = val.
Proof.
  unfold doString, bind. intros H.
  destruct (String.eqb action Decrypt).
  { destruct (decryptVal s val w) as [[[v0 [e0|]] w0]|]; try discriminate H;
      unfold ret in H; congruence. }
  destruct (String.eqb action Encrypt).
  { destruct (negb (isEncrypted val)); [|discriminate H].
    destruct (callEncryptSecret (pki s) val w) as [[[v0 [e0|]] w0]|];
      try discriminate H; unfold ret in H; congruence. }
  destruct (String.eqb action Validate).
  { destruct (keyInfo tmp s val w) as [[[v0 [e0|]] w0]|]; try discriminate H;
      unfold ret in H; congruence. }
  destruct (String.eqb action Rotate).
  { destruct (rotateVal s val w) as [[[v0 [e0|]] w0]|]; try discriminate H;
      unfold ret in H; congruence. }
  discriminate H.
Qed.

Lemma doSlice_range_error (f : Value -> M (Value * option error)) (vals : Value) :
  forall items things w r e w',
    doSlice_range f vals items things w = Some ((r, Some e), w') -> r = vals.
Proof.
  induction items as [|item items IH]; intros things w r e w' H.
  - discriminate H.
  - destruct item; cbn [doSlice_range] in H;
      try discriminate H; try exact (IH _ _ _ _ _ H);
      unfold bind in H;
      (destruct (f _ w) as [[[thing [e0|]] w0]|]; try discriminate H;
       [unfold ret in H; congruence | exact (IH _ _ _ _ _ H)]).
Qed.

(** X1.  When an action fails on a string or on a sequence, the value
    returned beside the error is the value that was passed in: no partly
    processed sequence and no backend output comes back with an error. *)
Theorem ProcessValues_error_returns_input (tmp : TmpFile) (s : Sls) (vals : Value)
  (action : string) (w : World) v e w' :
  ProcessValues tmp s vals action w = Some ((v, Some e), w') ->
  (forall entries, vals <> VMap entries) ->
  v = vals.
Proof.
  intros H Hkind. destruct vals as [| str | o | items | entries].
  - discriminate H.
  - cbn [ProcessValues] in H. unfold bind in H.
    destruct (doString tmp s str action w) as [[[str' [e0|]] w0]|] eqn:Hstr;
      try discriminate H.
    unfold ret in H. injection H as <- _ _.
    rewrite (doString_error _ _ _ _ _ _ _ _ Hstr). reflexivity.
  - discriminate H.
  - exact (doSlice_range_error _ _ _ _ _ _ _ _ H).
  - exfalso. exact (Hkind entries eq_refl).
Qed.

Lemma ProcessValues_error_returns_input_witness :
  let s := Sample.new "secrets.sls" "" [] in
  let vals := VSlice [VString "plain"; VString Docs.not_armoured] in
  ProcessValues Sample.tmp s vals Decrypt []
  = Some ((vals, Some "error decrypting value: no armored data found"),
          [CallDecryptSecret Docs.not_armoured])
  /\ vals = vals.
Proof.
  intros s vals. split; [reflexivity|].
  apply (ProcessValues_error_returns_input Sample.tmp s vals Decrypt [] vals
           "error decrypting value: no armored data found"
           [CallDecryptSecret Docs.not_armoured]); [reflexivity|].
  intros entries. discriminate.
Defined.

(** ** Decrypting what was encrypted *)

(** X2.  With a backend that decrypts its own ciphertext, encrypting a
    plaintext scalar and then decrypting the result gives the plaintext
    back, after one call to each side of the backend. *)
Theorem decrypt_after_encrypt (tmp : TmpFile) (s : Sls) (p c : string) (w : World) :
  isEncrypted p = false ->
  EncryptSecret (pki s) w p = (c, None) ->
  isEncrypted c = true ->
  DecryptSecret (pki s) (w ++ [CallEncryptSecret p]) c = (p, None) ->
  (let! (c1, _) := doString tmp s p Encrypt in doString tmp s c1 Decrypt) w
  = Some ((p, None), (w ++ [CallEncryptSecret p]) ++ [CallDecryptSecret c]).
Proof.
  intros Hplain Henc Hmarked Hdec.
  assert (Hfirst : doString tmp s p Encrypt w
                   = Some ((c, None), w ++ [CallEncryptSecret p])).
  { rewrite doString_Encrypt_plain by exact Hplain. rewrite Henc. reflexivity. }
  rewrite (bind_Some _ _ _ _ _ Hfirst).
  unfold doString. simpl.
  rewrite (bind_Some _ _ _ _ _ (decryptVal_marked s c _ Hmarked)).
  rewrite Hdec. reflexivity.
Qed.

Lemma decrypt_after_encrypt_witness :
  let s := Sample.new "secrets.sls" "" [] in
  (let! (c1, _) := doString Sample.tmp s "hunter2" Encrypt in
   doString Sample.tmp s c1 Decrypt) []
  = Some (("hunter2", None),
          [CallEncryptSecret "hunter2"] ++ [CallDecryptSecret (pgpHeader +:+ "hunter2")]).
Proof.
  intros s.
  apply (decrypt_after_encrypt Sample.tmp s "hunter2" (pgpHeader +:+ "hunter2") []);
    reflexivity.
Defined.

(** ** Induction over document trees *)

Lemma Value_nested_ind (P : Value -> Prop) :
  P VNil ->
  (forall str, P (VString str)) ->
  (forall o, P (VOther o)) ->
  (forall items, List.Forall P items -> P (VSlice items)) ->
  (forall entries, List.Forall (fun kv => P (snd kv)) entries -> P (VMap entries)) ->
  forall v, P v.
Proof.
  intros Hnil Hstr Hother Hslice Hmap. fix IH 1.
  intros [| str | o | items | entries].
  - exact Hnil.
  - apply Hstr.
  - apply Hother.
  - apply Hslice. induction items as [|item items IHitems].
    + constructor.
    + constructor; [apply IH | exact IHitems].
  - apply Hmap. induction entries as [|[k v] entries IHentries].
    + constructor.
    + constructor; [apply IH | exact IHentries].
Qed.

(** ** The calls an action makes *)

Lemma only_calls_refl (P : Call -> Prop) (w : World) : only_calls P w w.
Proof. exists []. split; [symmetry; apply app_nil_r | constructor]. Qed.

Lemma only_calls_trans (P : Call -> Prop) (w1 w2 w3 : World) :
  only_calls P w1 w2 -> only_calls P w2 w3 -> only_calls P w1 w3.
Proof.
  intros (c1 & -> & H1) (c2 & -> & H2). exists (c1 ++ c2). split.
  - symmetry. apply app_assoc.
  - apply Forall_app. split; assumption.
Qed.

Lemma only_calls_one (P : Call -> Prop) (w : World) (c : Call) :
  P c -> only_calls P w (w ++ [c]).
Proof. intros H. exists [c]. split; [reflexivity | constructor; [exact H | constructor]]. Qed.

Section TraceFacts.
Variable tmp : TmpFile.
Variable s : Sls.

Lemma decryptVal_trace (val : string) (w : World) r w' :
  decryptVal s val w = Some (r, w') ->
  (isEncrypted val = false /\ w' = w /\ r = (val, None))
  \/ (isEncrypted val = true /\ w' = w ++ [CallDecryptSecret val]).
Proof.
  unfold decryptVal. destruct (isEncrypted val) eqn:E; intros H.
  - right. split; [reflexivity|].
    unfold bind, callDecryptSecret in H.
    destruct (DecryptSecret (pki s) w val) as [plainText [e|]];
      unfold ret in H; congruence.
  - left. unfold ret in H. split; [reflexivity|]. split; congruence.
Qed.

Lemma keyInfo_trace (val : string) (w : World) r w' :
  keyInfo tmp s val w = Some (r, w') ->
  w' = w \/ (isEncrypted val = true /\ w' = w ++ [CallKeyUsedForEncryptedFile val]).
Proof.
  unfold keyInfo. destruct (isEncrypted val) eqn:E; cbn [negb]; intros H.
  - unfold bind, sys, ret, callKeyUsedForEncryptedFile in H.
    destruct (TempFile_err tmp w); [left; congruence|].
    destruct (tmpWrite_err tmp w); [left; congruence|].
    destruct (KeyUsedForEncryptedFile (pki s) w val) as [info [e|]];
      [right; split; congruence|].
    destruct (tmpClose_err tmp _); [right; split; congruence|].
    destruct (tmpRemove_err tmp _); right; split; congruence.
  - left. unfold ret in H. congruence.
Qed.

Lemma doString_trace (val action : string) (w : World) r w' :
  doString tmp s val action w = Some (r, w') ->
  only_calls (permitted action) w w'.
Proof.
  unfold doString. intros H.
  destruct (String.eqb action Decrypt) eqn:Ed.
  { apply String.eqb_eq in Ed. unfold bind in H.
    destruct (decryptVal s val w) as [[[v0 e0] w0]|] eqn:Hd; [|discriminate H].
    assert (w' = w0) by (destruct e0; unfold ret in H; congruence). subst w0.
    destruct (decryptVal_trace _ _ _ _ Hd) as [(_ & -> & _)|(Hm & ->)].
    - apply only_calls_refl.
    - apply only_calls_one. simpl. tauto. }
  destruct (String.eqb action Encrypt) eqn:Ee.
  { apply String.eqb_eq in Ee. destruct (isEncrypted val) eqn:Hm; cbn [negb] in H.
    - unfold ret in H. injection H as _ <-. apply only_calls_refl.
    - unfold bind, callEncryptSecret in H.
      assert (w' = w ++ [CallEncryptSecret val]).
      { destruct (EncryptSecret (pki s) w val) as [c [e|]]; unfold ret in H; congruence. }
      subst w'. apply only_calls_one. simpl. tauto. }
  destruct (String.eqb action Validate) eqn:Ev.
  { apply String.eqb_eq in Ev. unfold bind in H.
    destruct (keyInfo tmp s val w) as [[[v0 e0] w0]|] eqn:Hk; [|discriminate H].
    assert (w' = w0) by (destruct e0; unfold ret in H; congruence). subst w0.
    destruct (keyInfo_trace _ _ _ _ Hk) as [->|(Hm & ->)].
    - apply only_calls_refl.
    - apply only_calls_one. simpl. tauto. }
  destruct (String.eqb action Rotate) eqn:Er.
  { apply String.eqb_eq in Er. unfold bind in H.
    destruct (rotateVal s val w) as [[[v0 e0] w0]|] eqn:Hr; [|discriminate H].
    assert (w' = w0) by (destruct e0; unfold ret in H; congruence). subst w0.
    unfold rotateVal, bind in Hr.
    destruct (decryptVal s val w) as [[[v1 e1] w1]|] eqn:Hd; [|discriminate Hr].
    assert (Hfirst : only_calls (permitted action) w w1).
    { destruct (decryptVal_trace _ _ _ _ Hd) as [(_ & -> & _)|(Hm & ->)].
      - apply only_calls_refl.
      - apply only_calls_one. simpl. tauto. }
    destruct e1 as [e1|].
    - unfold ret in Hr. injection Hr as _ _ <-. exact Hfirst.
    - unfold callEncryptSecret in Hr. injection Hr as _ <-.
      apply (only_calls_trans _ _ _ _ Hfirst). apply only_calls_one. simpl. tauto. }
  unfold ret in H. injection H as _ <-. apply only_calls_refl.
Qed.

Lemma doSlice_range_trace (P : Call -> Prop) (f : Value -> M (Value * option error))
  (vals : Value) :
  forall items,
    List.Forall (fun item => forall w r w', f item w = Some (r, w') -> only_calls P w w')
                items ->
    forall things w r w',
      doSlice_range f vals items things w = Some (r, w') -> only_calls P w w'.
Proof.
  induction items as [|item items IH]; intros Hall things w r w' H.
  - unfold doSlice_range, ret in H. injection H as _ <-. apply only_calls_refl.
  - inversion Hall as [|? ? Hitem Hitems]; subst.
    destruct item; cbn [doSlice_range] in H;
      try discriminate H; try exact (IH Hitems _ _ _ _ H);
      unfold bind in H;
      (destruct (f _ w) as [[[thing [e0|]] w0]|] eqn:Hf; try discriminate H;
       [unfold ret in H; injection H as _ <-; exact (Hitem _ _ _ Hf)
       |exact (only_calls_trans _ _ _ _ (Hitem _ _ _ Hf) (IH Hitems _ _ _ _ H))]).
Qed.

Lemma doMap_range_trace (P : Call -> Prop) (f : Value -> M (Value * option error)) :
  forall entries,
    List.Forall (fun kv => forall w r w', f (snd kv) w = Some (r, w') -> only_calls P w w')
                entries ->
    forall ret0 err w r w',
      doMap_range f entries ret0 err w = Some (r, w') -> only_calls P w w'.
Proof.
  induction entries as [|[key val] entries IH]; intros Hall ret0 err w r w' H.
  - unfold doMap_range, ret in H. injection H as _ <-. apply only_calls_refl.
  - inversion Hall as [|? ? Hval Hentries]; subst. cbn [snd] in Hval.
    destruct val; cbn [doMap_range] in H;
      try (unfold ret in H; injection H as _ <-; apply only_calls_refl);
      try exact (IH Hentries _ _ _ _ _ H);
      unfold bind in H;
      (destruct (f _ w) as [[[v e0] w0]|] eqn:Hf; [|discriminate H];
       exact (only_calls_trans _ _ _ _ (Hval _ _ _ Hf) (IH Hentries _ _ _ _ _ H))).
Qed.

Lemma doKind_trace (action : string) (v : Value) :
  forall w r w',
    doKind tmp s action v w = Some (r, w') -> only_calls (permitted action) w w'.
Proof.
  induction v as [| str | o | items IH | entries IH] using Value_nested_ind;
    intros w r w' H.
  - unfold doKind, ret in H. injection H as _ <-. apply only_calls_refl.
  - cbn [doKind] in H. unfold bind in H.
    destruct (doString tmp s str action w) as [[[str' e0] w0]|] eqn:Hs; [|discriminate H].
    unfold ret in H. injection H as _ <-. exact (doString_trace _ _ _ _ _ Hs).
  - unfold doKind, ret in H. injection H as _ <-. apply only_calls_refl.
  - cbn [doKind] in H. exact (doSlice_range_trace _ _ _ _ IH _ _ _ _ H).
  - cbn [doKind] in H. exact (doMap_range_trace _ _ _ IH _ _ _ _ _ H).
Qed.

Lemma ProcessValues_trace (action : string) (v : Value) (w : World) r w' :
  ProcessValues tmp s v action w = Some (r, w') ->
  only_calls (permitted action) w w'.
Proof.
  destruct v as [| str | o | items | entries]; intros H.
  - unfold ProcessValues, ret in H. injection H as _ <-. apply only_calls_refl.
  - exact (doKind_trace action (VString str) _ _ _ H).
  - unfold ProcessValues, ret in H. injection H as _ <-. apply only_calls_refl.
  - exact (doKind_trace action (VSlice items) _ _ _ H).
  - exact (doKind_trace action (VMap entries) _ _ _ H).
Qed.

Lemma PerformAction_range_trace (action : string) :
  forall keys stuff w r w',
    PerformAction_range tmp s action keys stuff w = Some (r, w') ->
    only_calls (permitted action) w w'.
Proof.
  induction keys as [|key keys IH]; intros stuff w r w' H.
  - unfold PerformAction_range, ret in H. injection H as _ <-. apply only_calls_refl.
  - cbn [PerformAction_range] in H.
    assert (Hstep : forall stuff0,
               (let! (v, err) := ProcessValues tmp s (GetValueFromPath s key) action in
                let stuff1 := mapassign String.eqb stuff0 key v in
                match err with
                | Some e => ret (stuff1, Some e)
                | None => PerformAction_range tmp s action keys stuff1
                end) w = Some (r, w') -> only_calls (permitted action) w w').
    { intros stuff0 H0. unfold bind in H0.
      destruct (ProcessValues tmp s (GetValueFromPath s key) action w)
        as [[[v [e|]] w0]|] eqn:Hp; try discriminate H0.
      - unfold ret in H0. injection H0 as _ <-. exact (ProcessValues_trace _ _ _ _ _ Hp).
      - exact (only_calls_trans _ _ _ _ (ProcessValues_trace _ _ _ _ _ Hp)
                 (IH _ _ _ _ H0)). }
    destruct (negb (String.eqb (EncryptionPath s) "")).
    + destruct (String.eqb (EncryptionPath s) key).
      * exact (Hstep _ H).
      * exact (IH _ _ _ _ H).
    + exact (Hstep _ H).
Qed.
End TraceFacts.

(** X3.  Whatever the document and the scope, a call of [PerformAction]
    extends the backend trace only by calls its action permits: encrypt
    never decrypts and never hands over a string that has the marker,
    decrypt and validate only hand over strings that have it, and an
    unknown action calls nothing. *)
Theorem PerformAction_calls_are_permitted (Marshal : Values -> string * option error)
  (tmp : TmpFile) (s : Sls) (action : string) (w : World) r s' w' :
  PerformAction Marshal tmp s action w = Some (r, s', w') ->
  only_calls (permitted action) w w'.
Proof.
  unfold PerformAction. intros H.
  destruct (validAction action).
  - unfold bind in H.
    destruct (PerformAction_range tmp s action (map fst (Yaml s)) [] w)
      as [[[stuff err] w0]|] eqn:Hrange; [|discriminate H].
    assert (w' = w0) by (destruct err; unfold ret in H; congruence). subst w0.
    exact (PerformAction_range_trace _ _ _ _ _ _ _ _ Hrange).
  - unfold ret in H. injection H as _ _ <-. apply only_calls_refl.
Qed.

Lemma PerformAction_calls_are_permitted_witness :
  let s := Sample.new "secrets.sls" ""
             [("a", VString "hunter2"); ("b", VString (pgpHeader +:+ "x"))] in
  only_calls (permitted Encrypt) [] [CallEncryptSecret "hunter2"].
Proof.
  intros s.
  refine (PerformAction_calls_are_permitted Sample.Marshal Sample.tmp s Encrypt []
            _ _ _ _).
  vm_compute. reflexivity.
Defined.

(** ** The structure of a processed tree *)

Lemma mapassign_fresh {V} (m : list (Key * V)) (k : Key) (v : V) :
  List.Forall (fun kv => Key_eqb (fst kv) k = false) m ->
  mapassign Key_eqb m k v = m ++ [(k, v)].
Proof.
  induction m as [|[k' v'] m IH]; intros H.
  - reflexivity.
  - inversion H as [|? ? Hk Hm]; subst. cbn [fst] in Hk.
    cbn [mapassign]. rewrite Hk, (IH Hm). reflexivity.
Qed.

Lemma decryptVal_returns (s : Sls) (val : string) (w : World) :
  exists r w', decryptVal s val w = Some (r, w').
Proof.
  unfold decryptVal, bind, callDecryptSecret, ret.
  destruct (isEncrypted val); [|eauto].
  destruct (DecryptSecret (pki s) w val) as [plainText [e|]]; eauto.
Qed.

Lemma keyInfo_returns (tmp : TmpFile) (s : Sls) (val : string) (w : World) :
  exists r w', keyInfo tmp s val w = Some (r, w').
Proof.
  unfold keyInfo, bind, sys, callKeyUsedForEncryptedFile, ret.
  destruct (negb (isEncrypted val)); [eauto|].
  destruct (TempFile_err tmp w); [eauto|].
  destruct (tmpWrite_err tmp w); [eauto|].
  destruct (KeyUsedForEncryptedFile (pki s) w val) as [info [e|]]; [eauto|].
  destruct (tmpClose_err tmp _); [eauto|].
  destruct (tmpRemove_err tmp _); eauto.
Qed.

Lemma doString_returns (tmp : TmpFile) (s : Sls) (val action : string) (w : World) :
  exists r w', doString tmp s val action w = Some (r, w').
Proof.
  unfold doString.
  destruct (String.eqb action Decrypt).
  { unfold bind. destruct (decryptVal_returns s val w) as ([v [e|]] & w' & ->);
      unfold ret; eauto. }
  destruct (String.eqb action Encrypt).
  { destruct (negb (isEncrypted val)); [|unfold ret; eauto].
    unfold bind, callEncryptSecret, ret.
    destruct (EncryptSecret (pki s) w val) as [c [e|]]; eauto. }
  destruct (String.eqb action Validate).
  { unfold bind. destruct (keyInfo_returns tmp s val w) as ([v [e|]] & w' & ->);
      unfold ret; eauto. }
  destruct (String.eqb action Rotate).
  { unfold bind, rotateVal, bind.
    destruct (decryptVal_returns s val w) as ([v [e|]] & w' & ->); unfold ret; [eauto|].
    unfold callEncryptSecret.
    destruct (EncryptSecret (pki s) w' v) as [c [e|]]; eauto. }
  unfold ret. eauto.
Qed.

Section ShapeFacts.
Variable f : Value -> M (Value * option error).

Lemma doSlice_range_shape (vals : Value) :
  forall items,
    List.Forall (keeps_shape f) items ->
    forallb walkable items = true ->
    forall things w,
    exists r err w',
      doSlice_range f vals items things w = Some ((r, err), w')
      /\ (r = vals
          \/ exists outs, r = VSlice (things ++ outs)
                          /\ map skeleton outs = map skeleton items).
Proof.
  induction items as [|item items IH]; intros Hall Hwalk things w.
  - exists (VSlice things), None, w. split; [reflexivity|].
    right. exists []. rewrite app_nil_r. split; reflexivity.
  - inversion Hall as [|? ? Hitem Hitems]; subst.
    cbn [forallb] in Hwalk. apply andb_true_iff in Hwalk. destruct Hwalk as [Hw Hws].
    destruct (Hitem Hw w) as (v' & err & w1 & Hf & Hskel).
    assert (Hstep : doSlice_range f vals (item :: items) things w
                    = match err with
                      | Some e => Some ((vals, Some e), w1)
                      | None => doSlice_range f vals items (things ++ [v']) w1
                      end).
    { destruct item; try discriminate Hw; cbn [doSlice_range]; unfold bind;
        rewrite Hf; destruct err; reflexivity. }
    rewrite Hstep. destruct err as [e|].
    + exists vals, (Some e), w1. split; [reflexivity | left; reflexivity].
    + destruct (IH Hitems Hws (things ++ [v']) w1) as (r & err & w' & Hrun & Hr).
      exists r, err, w'. split; [exact Hrun|].
      destruct Hr as [->|(outs & -> & Houts)]; [left; reflexivity|].
      right. exists (v' :: outs). split.
      * rewrite <- app_assoc. reflexivity.
      * cbn [map]. rewrite Hskel, Houts. reflexivity.
Qed.

Lemma doMap_range_shape :
  forall entries,
    List.Forall (fun kv => keeps_shape f (snd kv)) entries ->
    forallb (fun kv => walkable (snd kv)) entries = true ->
    distinct_keys (map fst entries) = true ->
    forall ret0 err w,
      List.Forall (fun kv => existsb (Key_eqb (fst kv)) (map fst entries) = false) ret0 ->
      exists outs err' w',
        doMap_range f entries ret0 err w = Some ((VMap (ret0 ++ outs), err'), w')
        /\ map (fun kv => (fst kv, skeleton (snd kv))) outs
           = map (fun kv => (fst kv, skeleton (snd kv))) entries.
Proof.
  induction entries as [|[key val] entries IH];
    intros Hall Hwalk Hkeys ret0 err w Hfresh.
  - exists [], err, w. rewrite app_nil_r. split; reflexivity.
  - inversion Hall as [|? ? Hval Hentries]; subst. cbn [snd] in Hval.
    cbn [forallb snd] in Hwalk. apply andb_true_iff in Hwalk. destruct Hwalk as [Hw Hws].
    cbn [map fst distinct_keys] in Hkeys. apply andb_true_iff in Hkeys.
    destruct Hkeys as [Hkey Hkeys]. apply negb_true_iff in Hkey.
    destruct (Hval Hw w) as (v' & err1 & w1 & Hf & Hskel).
    assert (Hassign : mapassign Key_eqb ret0 key v' = ret0 ++ [(key, v')]).
    { apply mapassign_fresh. revert Hfresh. apply List.Forall_impl.
      intros kv H. cbn [map fst existsb] in H. apply orb_false_elim in H. tauto. }
    assert (Hstep : doMap_range f ((key, val) :: entries) ret0 err w
                    = doMap_range f entries (ret0 ++ [(key, v')]) err1 w1).
    { destruct val; try discriminate Hw; cbn [doMap_range]; unfold bind;
        rewrite Hf, Hassign; reflexivity. }
    rewrite Hstep.
    destruct (IH Hentries Hws Hkeys (ret0 ++ [(key, v')]) err1 w1)
      as (outs & err' & w' & Hrun & Houts).
    { apply Forall_app. split.
      - revert Hfresh. apply List.Forall_impl.
        intros kv H. cbn [map fst existsb] in H. apply orb_false_elim in H. tauto.
      - constructor; [exact Hkey | constructor]. }
    exists ((key, v') :: outs), err', w'. split.
    + rewrite Hrun. rewrite <- app_assoc. reflexivity.
    + cbn [map fst snd]. rewrite Hskel, Houts. reflexivity.
Qed.
End ShapeFacts.

Lemma doKind_shape (tmp : TmpFile) (s : Sls) (action : string) (v : Value) :
  keeps_shape (doKind tmp s action) v.
Proof.
  induction v as [| str | o | items IH | entries IH] using Value_nested_ind;
    intros Hwalk w.
  - discriminate Hwalk.
  - destruct (doString_returns tmp s str action w) as ([str' err] & w' & H).
    exists (VString str'), err, w'. cbn [doKind]. unfold bind. rewrite H.
    split; reflexivity.
  - discriminate Hwalk.
  - cbn [walkable] in Hwalk.
    destruct (doSlice_range_shape _ (VSlice items) items IH Hwalk [] w)
      as (r & err & w' & Hrun & Hr).
    exists r, err, w'. split; [exact Hrun|].
    destruct Hr as [->|(outs & -> & Houts)]; [reflexivity|].
    cbn [app skeleton]. rewrite Houts. reflexivity.
  - cbn [walkable] in Hwalk. apply andb_true_iff in Hwalk. destruct Hwalk as [Hws Hkeys].
    destruct (doMap_range_shape _ entries IH Hws Hkeys [] None w (List.Forall_nil _))
      as (outs & err & w' & Hrun & Houts).
    exists (VMap outs), err, w'. split; [exact Hrun|].
    cbn [skeleton]. rewrite Houts. reflexivity.
Qed.

(** X4.  On a tree of strings, sequences and mappings, with no key twice
    in a mapping, [ProcessValues] always returns, and the value it returns,
    with or without an error, has the structure of the input: the same
    keys, the same lengths and order, a string where a string was. *)
Theorem ProcessValues_keeps_structure (tmp : TmpFile) (s : Sls) (vals : Value)
  (action : string) (w : World) :
  walkable vals = true ->
  exists v' err w',
    ProcessValues tmp s vals action w = Some ((v', err), w')
    /\ skeleton v' = skeleton vals.
Proof.
  intros Hwalk.
  destruct (doKind_shape tmp s action vals Hwalk w) as (v' & err & w' & H & Hskel).
  exists v', err, w'. split; [|exact Hskel].
  destruct vals; try discriminate Hwalk; exact H.
Qed.

Lemma ProcessValues_keeps_structure_witness :
  let s := Sample.new "secrets.sls" "" [] in
  let vals := VMap [(KString "users",
                     VSlice [VMap [(KString "name", VString "ann");
                                   (KString "password", VString "hunter2")]])] in
  exists v' err w',
    ProcessValues Sample.tmp s vals Encrypt [] = Some ((v', err), w')
    /\ skeleton v' = skeleton vals.
Proof.
  intros s vals.
  apply (ProcessValues_keeps_structure Sample.tmp s vals Encrypt []). reflexivity.
Defined.

(** ** The top-level keys of the output *)

Lemma mapassign_new_key {V} (m : list (string * V)) (k : string) (v : V) :
  ~ In k (map fst m) ->
  map fst (mapassign String.eqb m k v) = map fst m ++ [k].
Proof.
  induction m as [|[k' v'] m IH]; intros Hnew.
  - reflexivity.
  - cbn [mapassign]. destruct (String.eqb k' k) eqn:E.
    + apply String.eqb_eq in E. exfalso. apply Hnew. left. exact E.
    + cbn [map fst app]. rewrite IH; [reflexivity|].
      intros H. apply Hnew. right. exact H.
Qed.

Lemma NoDup_app_head {A} (l : list A) (x : A) (r : list A) :
  List.NoDup (l ++ x :: r) -> ~ In x l /\ List.NoDup ((l ++ [x]) ++ r).
Proof.
  intros H. split.
  - apply List.NoDup_remove_2 in H. intros Hin. apply H. apply in_or_app. left. exact Hin.
  - rewrite <- app_assoc. exact H.
Qed.

Lemma PerformAction_range_keys (tmp : TmpFile) (s : Sls) (action : string) :
  forall keys stuff w stuff' w',
    List.NoDup (map fst stuff ++ keys) ->
    PerformAction_range tmp s action keys stuff w = Some ((stuff', None), w') ->
    map fst stuff' = map fst stuff ++ keys.
Proof.
  induction keys as [|key keys IH]; intros stuff w stuff' w' Hnodup H.
  - unfold PerformAction_range, ret in H. injection H as <- _.
    symmetry. apply app_nil_r.
  - destruct (NoDup_app_head _ _ _ Hnodup) as [Hnew Hnodup'].
    assert (Hnext : forall v w0,
               PerformAction_range tmp s action keys (mapassign String.eqb stuff key v) w0
               = Some ((stuff', None), w') ->
               map fst stuff' = map fst stuff ++ key :: keys).
    { intros v w0 H0. rewrite (IH _ _ _ _ ltac:(rewrite mapassign_new_key; eassumption) H0).
      rewrite mapassign_new_key by exact Hnew. rewrite <- app_assoc. reflexivity. }
    assert (Hstep : forall stuff0,
               stuff0 = stuff ->
               (let! (v, err) := ProcessValues tmp s (GetValueFromPath s key) action in
                let stuff1 := mapassign String.eqb stuff0 key v in
                match err with
                | Some e => ret (stuff1, Some e)
                | None => PerformAction_range tmp s action keys stuff1
                end) w = Some ((stuff', None), w') ->
               map fst stuff' = map fst stuff ++ key :: keys).
    { intros stuff0 -> H0. unfold bind in H0.
      destruct (ProcessValues tmp s (GetValueFromPath s key) action w)
        as [[[v [e|]] w0]|]; try discriminate H0.
      exact (Hnext _ _ H0). }
    cbn [PerformAction_range] in H.
    destruct (negb (String.eqb (EncryptionPath s) "")).
    + destruct (String.eqb (EncryptionPath s) key).
      * exact (Hstep _ eq_refl H).
      * exact (Hnext _ _ H).
    + exact (Hstep _ eq_refl H).
Qed.

(** X5.  When [PerformAction] returns without error, the data it has
    formatted has exactly the top-level keys of the document, in whole
    document and in scoped mode alike, whatever kinds the values have. *)
Theorem PerformAction_keeps_top_level_keys (Marshal : Values -> string * option error)
  (tmp : TmpFile) (s : Sls) (action : string) (w : World) buf s' w' :
  List.NoDup (map fst (Yaml s)) ->
  PerformAction Marshal tmp s action w = Some ((buf, None), s', w') ->
  map fst (formatted s' action) = map fst (Yaml s).
Proof.
  intros Hnodup H. unfold PerformAction in H.
  destruct (validAction action) eqn:Hvalid.
  - unfold bind in H.
    destruct (PerformAction_range tmp s action (map fst (Yaml s)) [] w)
      as [[[stuff [e|]] w0]|] eqn:Hrange; try discriminate H.
    unfold ret in H. injection H as _ <- _.
    rewrite formatted_after.
    exact (PerformAction_range_keys tmp s action _ [] _ _ _ Hnodup Hrange).
  - unfold ret in H. injection H as _ <- _.
    rewrite invalid_action_formats_document by exact Hvalid. reflexivity.
Qed.

Lemma PerformAction_keeps_top_level_keys_witness :
  let s := Sample.new "secrets.sls" ""
             [("port", VOther (OInt 8080)); ("password", VString "hunter2")] in
  exists buf s' w',
    PerformAction Sample.Marshal Sample.tmp s Encrypt [] = Some ((buf, None), s', w')
    /\ map fst (formatted s' Encrypt) = ["port"; "password"].
Proof.
  intros s.
  assert (Hrun : exists buf s' w',
             PerformAction Sample.Marshal Sample.tmp s Encrypt []
             = Some ((buf, None), s', w')).
  { eexists _, _, _. vm_compute. reflexivity. }
  destruct Hrun as (buf & s' & w' & Hrun).
  exists buf, s', w'. split; [exact Hrun|].
  apply (PerformAction_keeps_top_level_keys Sample.Marshal Sample.tmp s Encrypt []
           buf s' w'); [|exact Hrun].
  repeat constructor; simpl; intuition discriminate.
Defined.

(** ** A document without values *)

(** X6.  On a document without values [PerformAction], whatever the
    action, calls nothing and returns an empty buffer with the error
    "<file> has no values to format". *)
Theorem PerformAction_on_empty_document (Marshal : Values -> string * option error)
  (tmp : TmpFile) (s : Sls) (action : string) (w : World) :
  Yaml s = [] ->
  exists s',
    PerformAction Marshal tmp s action w
    = Some (("", Some (FilePath s +:+ " has no values to format")), s', w)
    /\ Yaml s' = [].
Proof.
  intros Hempty. unfold PerformAction. rewrite Hempty. cbn [map].
  destruct (validAction action) eqn:Hvalid.
  - cbn [PerformAction_range]. rewrite bind_ret.
    unfold FormatBuffer. rewrite formatted_after. cbn [List.length Nat.eqb].
    destruct (negb (String.eqb action Validate)).
    + exists (set_Yaml s []). split; reflexivity.
    + exists (set_KeyMap s []). split; [reflexivity | exact Hempty].
  - exists s. split; [|exact Hempty].
    unfold FormatBuffer.
    rewrite invalid_action_formats_document by exact Hvalid.
    rewrite Hempty. reflexivity.
Qed.

Lemma PerformAction_on_empty_document_witness :
  let s := Sample.new "/srv/pillar/new.sls" "" [] in
  exists s',
    PerformAction Sample.Marshal Sample.tmp s Encrypt []
    = Some (("", Some ("/srv/pillar/new.sls" +:+ " has no values to format")), s', [])
    /\ Yaml s' = [].
Proof.
  intros s.
  apply (PerformAction_on_empty_document Sample.Marshal Sample.tmp s Encrypt []).
  reflexivity.
Defined.

(** ** When the include scan passes *)

Lemma HasPrefix_append (s prefix tail : string) :
  HasPrefix s prefix = true -> HasPrefix (s +:+ tail) prefix = true.
Proof.
  revert s. induction prefix as [|a prefix IH]; intros s H.
  - reflexivity.
  - destruct s as [|b s]; [discriminate H|].
    cbn [HasPrefix] in H. apply andb_true_iff in H. destruct H as [Hab Hrest].
    change (String b s +:+ tail) with (String b (s +:+ tail)).
    cbn [HasPrefix]. rewrite Hab. exact (IH _ Hrest).
Qed.

Lemma Contains_append (s substr tail : string) :
  Contains s substr = true -> Contains (s +:+ tail) substr = true.
Proof.
  induction s as [|b s IH]; intros H.
  - cbn [Contains] in H. rewrite orb_false_r in H.
    apply HasPrefix_empty in H. subst substr.
    apply Contains_of_HasPrefix. reflexivity.
  - cbn [Contains] in H. apply orb_true_iff in H. destruct H as [H|H].
    + apply Contains_of_HasPrefix. apply HasPrefix_append. exact H.
    + change (String b s +:+ tail) with (String b (s +:+ tail)).
      cbn [Contains]. rewrite (IH H). apply orb_true_r.
Qed.

Lemma dropCR_is_prefix (raw : string) :
  exists tail, raw = dropCR raw +:+ tail.
Proof.
  induction raw as [|c raw IH].
  - exists EmptyString. reflexivity.
  - destruct raw as [|c' raw'].
    + cbn [dropCR]. destruct (Ascii.eqb c CR).
      * exists (String c EmptyString). reflexivity.
      * exists EmptyString. reflexivity.
    + destruct IH as [tail IH]. exists tail.
      change (dropCR (String c (String c' raw')))
        with (String c (dropCR (String c' raw'))).
      change (String c (dropCR (String c' raw')) +:+ tail)
        with (String c (dropCR (String c' raw') +:+ tail)).
      rewrite <- IH. reflexivity.
Qed.

Lemma Contains_dropCR_iff (raw : string) :
  Contains (dropCR raw) "include:" = Contains raw "include:".
Proof.
  destruct (Contains raw "include:") eqn:Hraw.
  - apply (Contains_dropCR "include:" eq_refl). exact Hraw.
  - destruct (Contains (dropCR raw) "include:") eqn:Hcut; [|reflexivity].
    destruct (dropCR_is_prefix raw) as [tail Htail].
    rewrite Htail in Hraw. rewrite (Contains_append _ _ tail Hcut) in Hraw.
    discriminate Hraw.
Qed.

(** X7.  [ScanForIncludes] returns no error exactly when every line of
    the text is shorter than the scanner's token limit and none of them
    contains [include:]; a carriage return at the end of a line makes no
    difference. *)
Theorem ScanForIncludes_passes_iff (os : OS) (s : Sls) (reader : string) :
  ScanForIncludes os s reader = None
  <-> List.Forall (fun raw => (N.of_nat (String.length raw) < MaxScanTokenSize)%N
                              /\ Contains raw "include:" = false)
                  (rawLines reader).
Proof.
  unfold ScanForIncludes. induction (rawLines reader) as [|raw lines IH].
  - split; [constructor | reflexivity].
  - cbn [ScanForIncludes_lines]. rewrite Contains_dropCR_iff.
    destruct (MaxScanTokenSize <=? N.of_nat (String.length raw))%N eqn:Hlen.
    + split; [discriminate|]. intros H. inversion H as [|? ? [Hshort _] _]; subst.
      apply N.leb_le in Hlen. lia.
    + apply N.leb_gt in Hlen. destruct (Contains raw "include:") eqn:Hinc.
      * split; [discriminate|]. intros H. inversion H as [|? ? [_ Hno] _]; subst.
        rewrite Hinc in Hno. discriminate Hno.
      * split.
        -- intros H. constructor; [split; [exact Hlen | exact Hinc] | apply IH; exact H].
        -- intros H. inversion H; subst. apply IH. assumption.
Qed.

Lemma ReadBytes_with_include_witness :
  List.Exists (fun raw => Contains raw "include:" = true) (rawLines Docs.with_include)
  /\ ReadBytes Sample.healthy Sample.Unmarshal (Sample.new "secrets.sls" "" [])
       Docs.with_include
     = (snd (Sample.Unmarshal Docs.with_include),
        set_Yaml (set_IsInclude (set_Yaml (Sample.new "secrets.sls" "" []) []) true)
                 (fst (Sample.Unmarshal Docs.with_include))).
Proof.
  assert (H : List.Exists (fun raw => Contains raw "include:" = true)
                          (rawLines Docs.with_include)).
  { apply List.Exists_cons_hd. reflexivity. }
  split; [exact H|].
  exact (ReadBytes_with_include Sample.healthy Sample.Unmarshal _ _ H).
Defined.

(** ** What reading leaves of the file system *)

Lemma MkdirAll_keeps (os : OS) (fs : gmap string Node) (path q : string) (n : Node) :
  fs !! q = Some n -> snd (MkdirAll os fs path) !! q = Some n.
Proof.
  intros Hq. unfold MkdirAll.
  destruct (fault os (SysMkdirAll path)); [exact Hq|].
  destruct (existsb (isRegular fs) (pathChain (Abs os path))); [exact Hq|].
  apply fold_mkdir_keeps. exact Hq.
Qed.

Lemma OpenFile_create_keeps (os : OS) (fs : gmap string Node) (name q : string) (n : Node) :
  fs !! q = Some n -> snd (OpenFile_create os fs name) !! q = Some n.
Proof.
  intros Hq. unfold OpenFile_create.
  destruct (fault os (SysOpenFile name)); [exact Hq|].
  destruct (fs !! Abs os name) eqn:Hname; [exact Hq|].
  cbn [snd]. rewrite lookup_insert_ne; [exact Hq|]. intros Heq. congruence.
Qed.

(** X8.  Whatever the system answers, [ReadSlsFile] leaves every file
    and directory that existed before the call as it was: reading creates
    at most, it never overwrites or removes. *)
Theorem ReadSlsFile_keeps_existing_files (os : OS)
  (Unmarshal : string -> Values * option error) (fs : gmap string Node) (s : Sls)
  (q : string) (n : Node) :
  fs !! q = Some n ->
  snd (ReadSlsFile os Unmarshal fs s) !! q = Some n.
Proof.
  intros Hq. unfold ReadSlsFile.
  destruct (Nat.eqb (String.length (FilePath s)) 0); [exact Hq|].
  destruct (String.eqb (FilePath s) Stdout_Name); [exact Hq|].
  set (created := if IsNotExist (Stat os fs (FilePath s)) then _ else _).
  assert (Hcreated : snd created !! q = Some n).
  { subst created. destruct (IsNotExist (Stat os fs (FilePath s))); [|exact Hq].
    pose proof (MkdirAll_keeps os fs (Dir os (FilePath s)) q n Hq) as Hmk.
    destruct (MkdirAll os fs (Dir os (FilePath s))) as [[e|] fs1]; [exact Hmk|].
    apply OpenFile_create_keeps. exact Hmk. }
  destruct created as [[e|] fs1]; [exact Hcreated|].
  destruct (filepath_Abs os (FilePath s)) as [fullPath [e|]]; [exact Hcreated|].
  destruct (ReadFile os fs1 fullPath) as [buf [e|]]; exact Hcreated.
Qed.

Lemma ReadSlsFile_keeps_existing_files_witness :
  let fs : gmap string Node := {[ Docs.destination := RegularFile Docs.old_content ]} in
  snd (ReadSlsFile Sample.healthy Sample.Unmarshal fs
         (Sample.new "/srv/pillar/secrets.sls/new.sls" "" []))
  !! Docs.destination = Some (RegularFile Docs.old_content).
Proof.
  intros fs.
  apply (ReadSlsFile_keeps_existing_files Sample.healthy Sample.Unmarshal fs).
  vm_compute. reflexivity.
Defined.

(** ** Writing on a system without faults *)

Lemma firstBytes_all (data : string) :
  firstBytes (String.length data) data = data.
Proof.
  unfold firstBytes. induction data as [|c data IH].
  - reflexivity.
  - cbn [String.length String.substring]. rewrite IH. reflexivity.
Qed.

Lemma atomicWrite_healthy (os : OS) (fs : gmap string Node) (fullPath buffer : string) :
  healthy_system os ->
  Abs os (tempOf os fullPath) <> Abs os fullPath ->
  fs !! Abs os fullPath <> Some Directory ->
  atomicWrite os fs fullPath buffer
  = ((String.length buffer, None),
     delete (Abs os (tempOf os fullPath))
       (<[Abs os fullPath := RegularFile buffer]>
          (<[Abs os (tempOf os fullPath) := RegularFile buffer]> fs))).
Proof.
  intros [Hfault Hall] Hfresh Hdir. unfold tempOf in *.
  set (f := tempName os ("gsp-" +:+ path_Split_file fullPath)) in *.
  set (T := Abs os f) in *. set (D := Abs os fullPath) in *.
  unfold atomicWrite, TempFile. rewrite Hfault. fold f. fold T.
  unfold fileWrite. rewrite Hfault. fold T. rewrite lookup_insert_eq.
  rewrite insert_insert_eq. change (EmptyString +:+ buffer) with buffer.
  rewrite !Hfault.
  unfold copyFile, Stat. rewrite Hfault. fold T. rewrite lookup_insert_eq.
  rewrite Hfault.
  assert (Hcreate : Create os (<[T := RegularFile buffer]> fs) fullPath
                    = (None, <[D := RegularFile EmptyString]>
                               (<[T := RegularFile buffer]> fs))).
  { unfold Create. rewrite Hfault. fold D.
    rewrite lookup_insert_ne by exact Hfresh.
    destruct (fs !! D) as [[content|]|]; try reflexivity. contradiction. }
  rewrite Hcreate.
  assert (HDT : D <> T) by (intros Heq; apply Hfresh; symmetry; exact Heq).
  unfold ioCopy. rewrite Hfault, Hall. fold T. fold D.
  rewrite !(lookup_insert_ne _ D T _ HDT).
  rewrite lookup_insert_eq. cbn [default].
  rewrite Nat.min_id, firstBytes_all, Nat.eqb_refl. cbn [negb].
  rewrite insert_insert_eq. rewrite Hfault. cbv iota beta.
  rewrite ?(lookup_insert_ne _ D T _ HDT).
  rewrite lookup_insert_eq. cbn [IsNotExist negb].
  unfold Remove. rewrite Hfault. fold T.
  rewrite ?(lookup_insert_ne _ D T _ HDT).
  rewrite lookup_insert_eq. reflexivity.
Qed.

(** X9.  On a system without faults, with a temporary name other than
    the destination and a destination that is not a directory,
    [atomicWrite] returns the length of the buffer and no error, leaves
    the buffer as the content of the destination, leaves no temporary
    file, and changes no other file. *)
Theorem atomicWrite_replaces_destination (os : OS) (fs : gmap string Node)
  (fullPath buffer : string) :
  healthy_system os ->
  Abs os (tempOf os fullPath) <> Abs os fullPath ->
  fs !! Abs os fullPath <> Some Directory ->
  fst (atomicWrite os fs fullPath buffer) = (String.length buffer, None)
  /\ snd (atomicWrite os fs fullPath buffer) !! Abs os fullPath = Some (RegularFile buffer)
  /\ snd (atomicWrite os fs fullPath buffer) !! Abs os (tempOf os fullPath) = None
  /\ (forall q, q <> Abs os fullPath -> q <> Abs os (tempOf os fullPath) ->
                snd (atomicWrite os fs fullPath buffer) !! q = fs !! q).
Proof.
  intros Hhealthy Hfresh Hdir.
  rewrite (atomicWrite_healthy os fs fullPath buffer Hhealthy Hfresh Hdir). cbn [fst snd].
  split; [reflexivity|]. split.
  - rewrite lookup_delete_ne by exact Hfresh. apply lookup_insert_eq.
  - split; [apply lookup_delete_eq|].
    intros q Hq Hq'.
    rewrite lookup_delete_ne by congruence.
    rewrite !lookup_insert_ne by congruence. reflexivity.
Qed.

Lemma Sample_healthy_system : healthy_system Sample.healthy.
Proof. split; intros call; reflexivity. Qed.

Lemma atomicWrite_replaces_destination_witness :
  let fs : gmap string Node := {[ Docs.destination := RegularFile Docs.old_content ]} in
  let r := atomicWrite Sample.healthy fs Docs.destination Docs.new_content in
  fst r = (String.length Docs.new_content, None)
  /\ snd r !! Sample.abs Docs.destination = Some (RegularFile Docs.new_content)
  /\ snd r !! Sample.abs (tempOf Sample.healthy Docs.destination) = None
  /\ (forall q, q <> Sample.abs Docs.destination ->
                q <> Sample.abs (tempOf Sample.healthy Docs.destination) ->
                snd r !! q = fs !! q).
Proof.
  intros fs r.
  apply (atomicWrite_replaces_destination Sample.healthy fs Docs.destination
           Docs.new_content).
  - exact Sample_healthy_system.
  - vm_compute. discriminate.
  - vm_compute. discriminate.
Defined.

Lemma atomicWrite_early_failure_witness :
  let os := Sample.system (fun call => match call with
                                       | SysSync _ => Some "input/output error"
                                       | _ => None
                                       end) (fun _ => None) in
  let fs : gmap string Node := {[ Docs.destination := RegularFile Docs.old_content ]} in
  snd (fst (atomicWrite os fs Docs.destination Docs.new_content)) <> None
  /\ snd (atomicWrite os fs Docs.destination Docs.new_content) !! Sample.abs Docs.destination
     = fs !! Sample.abs Docs.destination.
Proof.
  intros os fs.
  apply (atomicWrite_early_failure os fs Docs.destination Docs.new_content).
  - vm_compute. discriminate.
  - right. right. left. discriminate.
Defined.

(** ** Writing a file and reading it back *)



(** ** The short name of a file *)

Lemma append_assoc (a b c : string) : (a +:+ b) +:+ c = a +:+ (b +:+ c).
Proof.
  induction a as [|x a IH]; [reflexivity|].
  change (String x (a +:+ b) +:+ c = String x (a +:+ (b +:+ c))).
  change (String x ((a +:+ b) +:+ c) = String x (a +:+ (b +:+ c))).
  rewrite IH. reflexivity.
Qed.

Lemma TrimPrefixLen_app (prefix rest : string) :
  TrimPrefixLen (String.length prefix) (prefix +:+ rest) = rest.
Proof.
  induction prefix as [|c prefix IH]; [reflexivity | exact IH].
Qed.

Lemma ReplaceFirstWithEmpty_prefix (old rest : string) :
  ReplaceFirstWithEmpty (old +:+ rest) old = rest.
Proof.
  assert (H : forall s, HasPrefix s old = true ->
                        ReplaceFirstWithEmpty s old = TrimPrefixLen (String.length old) s).
  { intros s Hs. destruct s; cbn [ReplaceFirstWithEmpty]; rewrite Hs; reflexivity. }
  rewrite H by apply HasPrefix_app. apply TrimPrefixLen_app.
Qed.

Lemma ReplaceFirstWithEmpty_absent (old : string) :
  forall s, Contains s old = false -> ReplaceFirstWithEmpty s old = s.
Proof.
  induction s as [|c s IH]; intros H.
  - cbn [Contains] in H. apply orb_false_elim in H. destruct H as [H _].
    cbn [ReplaceFirstWithEmpty]. rewrite H. reflexivity.
  - pose proof (Contains_cons_false _ _ _ H) as Hrest.
    cbn [Contains] in H. apply orb_false_elim in H. destruct H as [H _].
    cbn [ReplaceFirstWithEmpty]. rewrite H, (IH Hrest). reflexivity.
Qed.

(** X12.  When the working directory is known, [shortFileName] turns a
    path below the working directory into the path relative to it, and
    gives back unchanged a path in which the working directory followed by
    a slash does not occur. *)
Theorem shortFileName_relative (os : OS) (file : string) :
  fault os SysGetwd = None ->
  shortFileName os (pwd os +:+ "/" +:+ file) = file
  /\ (Contains file (pwd os +:+ "/") = false -> shortFileName os file = file).
Proof.
  intros Hwd. unfold shortFileName. rewrite Hwd. split.
  - rewrite <- append_assoc. apply ReplaceFirstWithEmpty_prefix.
  - apply ReplaceFirstWithEmpty_absent.
Qed.

Lemma shortFileName_relative_witness :
  shortFileName Sample.healthy ("/srv/pillar" +:+ "/" +:+ "db/secrets.sls") = "db/secrets.sls"
  /\ (Contains "db/secrets.sls" ("/srv/pillar" +:+ "/") = false ->
      shortFileName Sample.healthy "db/secrets.sls" = "db/secrets.sls").
Proof.
  apply (shortFileName_relative Sample.healthy "db/secrets.sls"). reflexivity.
Defined.

(** ** The backend calls of [ProcessYaml] *)

Lemma SetValueFromPath_pki
  (Yaml_Set : Values -> list string -> string -> Values * option error)
  (s : Sls) (path value : string) :
  pki (snd (SetValueFromPath Yaml_Set s path value)) = pki s.
Proof.
  unfold SetValueFromPath.
  destruct (Yaml_Set (Yaml s) (Split path colon) value) as [values [e|]]; reflexivity.
Qed.

(** X13.  When [ProcessYaml] returns without error, it has called the
    backend's encryption once for each value that has a name, in order and
    whether or not the value already carries the marker, and has made no
    other call: values past the last name are never encrypted. *)
Theorem ProcessYaml_encrypts_named_values
  (Yaml_Set : Values -> list string -> string -> Values * option error) :
  forall secretNames (s : Sls) secretValues (w : World) s' w',
    ProcessYaml Yaml_Set s secretNames secretValues w = Some ((None, s'), w') ->
    w' = w ++ map CallEncryptSecret (firstn (List.length secretNames) secretValues).
Proof.
  induction secretNames as [|name names IH]; intros s secretValues w s' w' H.
  - unfold ProcessYaml, ret in H. injection H as _ <-. symmetry. apply app_nil_r.
  - cbn [ProcessYaml] in H. destruct secretValues as [|value values].
    + destruct (SetValueFromPath Yaml_Set s name EmptyString) as [[e|] s1];
        [discriminate H|].
      rewrite (IH _ _ _ _ _ H). destruct names; reflexivity.
    + unfold bind, callEncryptSecret in H.
      destruct (EncryptSecret (pki s) w value) as [cipherText [e|]]; [discriminate H|].
      destruct (SetValueFromPath Yaml_Set s name cipherText) as [[e|] s1];
        [discriminate H|].
      rewrite (IH _ _ _ _ _ H). cbn [List.length firstn map].
      rewrite <- app_assoc. reflexivity.
Qed.

Lemma ProcessYaml_encrypts_named_values_witness :
  let set := fun (values : Values) (parts : list string) (value : string) =>
               (mapassign String.eqb values (String.concat ":" parts) (VString value),
                @None error) in
  let s := Sample.new "secrets.sls" "" [] in
  exists s',
    ProcessYaml set s ["user"; "password"; "token"] ["ann"; "hunter2"] []
    = Some ((None, s'), [CallEncryptSecret "ann"; CallEncryptSecret "hunter2"])
    /\ [CallEncryptSecret "ann"; CallEncryptSecret "hunter2"]
       = [] ++ map CallEncryptSecret (firstn 3 ["ann"; "hunter2"]).
Proof.
  intros set s. eexists. split; [reflexivity|].
  eapply (ProcessYaml_encrypts_named_values set ["user"; "password"; "token"] s
            ["ann"; "hunter2"] []).
  reflexivity.
Defined.

(** ** Package [main]: what [pillarRange] does to [secure_vars] *)






(** ** Package [main]: which profile is applied *)

Lemma last_nonempty {A} (l : list A) :
  forall x d d', List.last (x :: l) d = List.last (x :: l) d'.
Proof.
  induction l as [|y l IH]; intros x d d'; [reflexivity|].
  change (List.last (y :: l) d = List.last (y :: l) d'). apply IH.
Qed.

Lemma last_cons {A} (x d : A) (l : list A) : List.last (x :: l) d = List.last l x.
Proof.
  destruct l as [|y l]; [reflexivity|].
  change (List.last (y :: l) d = List.last (y :: l) x). apply last_nonempty.
Qed.

Lemma readConfigFile_range_last (g : Globals) :
  forall profiles profile,
    readConfigFile_range g profiles profile
    = List.last (List.filter (profile_matches g) profiles) profile.
Proof.
  induction profiles as [|p profiles IH]; intros profile; [reflexivity|].
  cbn [readConfigFile_range List.filter]. rewrite IH. unfold profile_matches at 2.
  destruct (negb (String.eqb (defaultProfileName g) ""));
    [destruct (String.eqb (Name p) (defaultProfileName g)) | destruct (Default p)];
    try reflexivity; symmetry; apply last_cons.
Qed.

(** X15.  Of the profiles of the configuration file, [readConfigFile]
    returns the last one that matches (by name when a profile name was
    asked for, else by its default flag), and the empty profile when none
    matches or when a key name was given on the command line. *)
Theorem readConfigFile_takes_last_match (g : Globals) (profiles : list GSPProfile) :
  readConfigFile_profiles g profiles
  = if String.eqb (pgpKeyName g) ""
    then List.last (List.filter (profile_matches g) profiles) zeroProfile
    else zeroProfile.
Proof.
  unfold readConfigFile_profiles.
  destruct (String.eqb (pgpKeyName g) ""); [apply readConfigFile_range_last | reflexivity].
Qed.

Lemma last_filter_In {A} (test : A -> bool) (l : list A) (d : A) :
  List.last (List.filter test l) d = d
  \/ (In (List.last (List.filter test l) d) l /\ test (List.last (List.filter test l) d) = true).
Proof.
  revert d. induction l as [|x l IH]; intros d; [left; reflexivity|].
  cbn [List.filter]. destruct (test x) eqn:Hx.
  - rewrite last_cons. destruct (IH x) as [->|[Hin Ht]].
    + right. split; [left; reflexivity | exact Hx].
    + right. split; [right; exact Hin | exact Ht].
  - destruct (IH d) as [->|[Hin Ht]]; [left; reflexivity|].
    right. split; [right; exact Hin | exact Ht].
Qed.

(** X16.  [setProfile] leaves the key name and both key rings as they
    are when a key name was given on the command line, and also when every
    matching profile of the configuration file has an empty name: a
    profile without a name is never applied, default or not. *)
Theorem setProfile_applies_named_profiles_only (g : Globals) (profiles : list GSPProfile) :
  pgpKeyName g <> ""
  \/ List.Forall (fun p => profile_matches g p = true -> Name p = "") profiles ->
  setProfile g profiles = g.
Proof.
  intros H. unfold setProfile.
  assert (Hname : Name (readConfigFile_profiles g profiles) = "").
  { unfold readConfigFile_profiles.
    destruct (String.eqb (pgpKeyName g) "") eqn:Hkey; [|reflexivity].
    destruct H as [H|H]; [apply String.eqb_eq in Hkey; contradiction|].
    rewrite readConfigFile_range_last.
    destruct (last_filter_In (profile_matches g) profiles zeroProfile) as [->|[Hin Ht]];
      [reflexivity|].
    rewrite List.Forall_forall in H. exact (H _ Hin Ht). }
  rewrite Hname. reflexivity.
Qed.

Lemma setProfile_applies_named_profiles_only_witness :
  let g := {| pgpKeyName := ""; defaultProfileName := "";
              defaultPubRing := "~/.gnupg/pubring.gpg";
              defaultSecRing := "~/.gnupg/secring.gpg" |} in
  let profiles := [{| Name := ""; Default := true; DefaultKey := "Dev Salt Master";
                      GnupgHome := "/etc/salt/gpgkeys"; DefaultPubRing := "";
                      DefaultSecRing := "" |}] in
  setProfile g profiles = g.
Proof.
  intros g profiles. apply (setProfile_applies_named_profiles_only g profiles).
  right. constructor; [reflexivity | constructor].
Defined.

(** ** Trees on which an action has nothing to do *)

Section InertFacts.
Variable test : string -> bool.
Variable f : Value -> M (Value * option error).

Lemma doSlice_range_inert (vals : Value) :
  forall items,
    List.Forall (leaves_alone test f) items ->
    forallb walkable items = true ->
    forallb (strings_all test) items = true ->
    forall things w,
      doSlice_range f vals items things w = Some ((VSlice (things ++ items), None), w).
Proof.
  induction items as [|item items IH]; intros Hall Hwalk Htest things w.
  - rewrite app_nil_r. reflexivity.
  - inversion Hall as [|? ? Hitem Hitems]; subst.
    cbn [forallb] in Hwalk, Htest.
    apply andb_true_iff in Hwalk. destruct Hwalk as [Hw Hws].
    apply andb_true_iff in Htest. destruct Htest as [Ht Hts].
    pose proof (Hitem Hw Ht w) as Hf.
    assert (Hstep : doSlice_range f vals (item :: items) things w
                    = doSlice_range f vals items (things ++ [item]) w).
    { destruct item; try discriminate Hw; cbn [doSlice_range]; unfold bind;
        rewrite Hf; reflexivity. }
    rewrite Hstep, (IH Hitems Hws Hts). rewrite <- app_assoc. reflexivity.
Qed.

Lemma doMap_range_inert :
  forall entries,
    List.Forall (fun kv => leaves_alone test f (snd kv)) entries ->
    forallb (fun kv => walkable (snd kv)) entries = true ->
    distinct_keys (map fst entries) = true ->
    forallb (fun kv => strings_all test (snd kv)) entries = true ->
    forall ret0 w,
      List.Forall (fun kv => existsb (Key_eqb (fst kv)) (map fst entries) = false) ret0 ->
      doMap_range f entries ret0 None w = Some ((VMap (ret0 ++ entries), None), w).
Proof.
  induction entries as [|[key val] entries IH];
    intros Hall Hwalk Hkeys Htest ret0 w Hfresh.
  - rewrite app_nil_r. reflexivity.
  - inversion Hall as [|? ? Hval Hentries]; subst. cbn [snd] in Hval.
    cbn [forallb snd] in Hwalk, Htest.
    apply andb_true_iff in Hwalk. destruct Hwalk as [Hw Hws].
    apply andb_true_iff in Htest. destruct Htest as [Ht Hts].
    cbn [map fst distinct_keys] in Hkeys. apply andb_true_iff in Hkeys.
    destruct Hkeys as [Hkey Hkeys]. apply negb_true_iff in Hkey.
    pose proof (Hval Hw Ht w) as Hf.
    assert (Hassign : mapassign Key_eqb ret0 key val = ret0 ++ [(key, val)]).
    { apply mapassign_fresh. revert Hfresh. apply List.Forall_impl.
      intros kv H. cbn [map fst existsb] in H. apply orb_false_elim in H. tauto. }
    assert (Hstep : doMap_range f ((key, val) :: entries) ret0 None w
                    = doMap_range f entries (ret0 ++ [(key, val)]) None w).
    { destruct val; try discriminate Hw; cbn [doMap_range]; unfold bind;
        rewrite Hf, Hassign; reflexivity. }
    rewrite Hstep, (IH Hentries Hws Hkeys Hts).
    + rewrite <- app_assoc. reflexivity.
    + apply Forall_app. split.
      * revert Hfresh. apply List.Forall_impl.
        intros kv H. cbn [map fst existsb] in H. apply orb_false_elim in H. tauto.
      * constructor; [exact Hkey | constructor].
Qed.
End InertFacts.

Lemma doKind_inert (tmp : TmpFile) (s : Sls) (action : string) (test : string -> bool) :
  (forall str w, test str = true -> doString tmp s str action w = Some ((str, None), w)) ->
  forall v, leaves_alone test (doKind tmp s action) v.
Proof.
  intros Hstring.
  induction v as [| str | o | items IH | entries IH] using Value_nested_ind;
    intros Hwalk Htest w.
  - discriminate Hwalk.
  - cbn [doKind]. unfold bind. rewrite (Hstring str w Htest). reflexivity.
  - discriminate Hwalk.
  - cbn [doKind]. cbn [walkable strings_all] in Hwalk, Htest.
    exact (doSlice_range_inert test _ _ items IH Hwalk Htest [] w).
  - cbn [doKind]. cbn [walkable strings_all] in Hwalk, Htest.
    apply andb_true_iff in Hwalk. destruct Hwalk as [Hws Hkeys].
    exact (doMap_range_inert test _ entries IH Hws Hkeys Htest [] w (List.Forall_nil _)).
Qed.

Lemma doString_Decrypt_plain (tmp : TmpFile) (s : Sls) (val : string) (w : World) :
  isEncrypted val = false ->
  doString tmp s val Decrypt w = Some ((val, None), w).
Proof.
  intros H. unfold doString. simpl.
  rewrite (bind_Some _ _ _ _ _ (decryptVal_plain s val w H)). reflexivity.
Qed.

(** X17.  On a tree of strings, sequences and mappings in which every
    string has the marker, encrypt returns the tree itself, without error
    and without a call to the backend; so does decrypt on such a tree in
    which no string has the marker. *)
Theorem nothing_to_do_is_identity (tmp : TmpFile) (s : Sls) (vals : Value) (w : World) :
  walkable vals = true ->
  (strings_all isEncrypted vals = true ->
   ProcessValues tmp s vals Encrypt w = Some ((vals, None), w))
  /\ (strings_all (fun str => negb (isEncrypted str)) vals = true ->
      ProcessValues tmp s vals Decrypt w = Some ((vals, None), w)).
Proof.
  intros Hwalk.
  assert (Hsame : forall action, ProcessValues tmp s vals action w
                                 = doKind tmp s action vals w).
  { intros action. destruct vals; try discriminate Hwalk; reflexivity. }
  split; intros Htest; rewrite Hsame.
  - apply (doKind_inert tmp s Encrypt isEncrypted); [|exact Hwalk | exact Htest].
    intros str w0 H. apply doString_Encrypt_marked. exact H.
  - apply (doKind_inert tmp s Decrypt (fun str => negb (isEncrypted str)));
      [|exact Hwalk | exact Htest].
    intros str w0 H. apply doString_Decrypt_plain. apply negb_true_iff. exact H.
Qed.

Lemma nothing_to_do_is_identity_witness :
  let s := Sample.new "secrets.sls" "" [] in
  let sealed := VMap [(KString "users", VSlice [VString (pgpHeader +:+ "ann")]);
                      (KString "password", VString (pgpHeader +:+ "hunter2"))] in
  let open := VMap [(KString "users", VSlice [VString "ann"]);
                    (KString "password", VString "hunter2")] in
  ProcessValues Sample.tmp s sealed Encrypt [] = Some ((sealed, None), [])
  /\ ProcessValues Sample.tmp s open Decrypt [] = Some ((open, None), []).
Proof.
  intros s sealed open. split.
  - apply (nothing_to_do_is_identity Sample.tmp s sealed []); reflexivity.
  - apply (nothing_to_do_is_identity Sample.tmp s open []); reflexivity.
Defined.

(** ** Rotating a scalar that has the marker *)

(** X18.  On a scalar with the marker, rotate decrypts and then encrypts
    what came out: when both calls succeed the new ciphertext is returned;
    when the decryption fails the scalar comes back unchanged with the
    error "error decrypting value: ..." and nothing is encrypted. *)
Theorem rotate_marked_scalar (tmp : TmpFile) (s : Sls) (x : string) (w : World) :
  isEncrypted x = true ->
  doString tmp s x Rotate w
  = match DecryptSecret (pki s) w x with
    | (_, Some e) =>
        Some ((x, Some ("error decrypting value: " +:+ e)), w ++ [CallDecryptSecret x])
    | (p, None) =>
        Some (match EncryptSecret (pki s) (w ++ [CallDecryptSecret x]) p with
              | (_, Some e) => (x, Some e)
              | (c, None) => (c, None)
              end,
              (w ++ [CallDecryptSecret x]) ++ [CallEncryptSecret p])
    end.
Proof.
  intros Hmarked.
  assert (Hrot : rotateVal s x w
                 = match DecryptSecret (pki s) w x with
                   | (_, Some e) =>
                       Some ((x, Some ("error decrypting value: " +:+ e)),
                             w ++ [CallDecryptSecret x])
                   | (p, None) =>
                       Some (EncryptSecret (pki s) (w ++ [CallDecryptSecret x]) p,
                             (w ++ [CallDecryptSecret x]) ++ [CallEncryptSecret p])
                   end).
  { unfold rotateVal, bind. rewrite (decryptVal_marked s x w Hmarked).
    destruct (DecryptSecret (pki s) w x) as [p [e|]]; reflexivity. }
  unfold doString. simpl. unfold bind. rewrite Hrot.
  destruct (DecryptSecret (pki s) w x) as [p [e|]]; [reflexivity|].
  destruct (EncryptSecret (pki s) (w ++ [CallDecryptSecret x]) p) as [c [e|]];
    reflexivity.
Qed.

Lemma rotate_marked_scalar_witness :
  let s := Sample.new "secrets.sls" "" [] in
  let x := pgpHeader +:+ "hunter2" in
  doString Sample.tmp s x Rotate []
  = Some ((x, None), [CallDecryptSecret x] ++ [CallEncryptSecret "hunter2"]).
Proof.
  intros s x.
  exact (rotate_marked_scalar Sample.tmp s x [] eq_refl).
Defined.
